(** * create-toolchain: the template reference resolver

    A shallow embedding of [getTemplateInstallPackage] (createToolchain.js)
    together with the part of the ECMAScript regular-expression semantics
    that its four patterns use, and the properties of the resolver. *)

From Stdlib Require Import List NArith Bool Arith Lia String Ascii.
Import ListNotations.

Set Implicit Arguments.

(** ** JavaScript strings

    A JavaScript string is a sequence of UTF-16 code units.  None of the
    patterns of the resolver carries the [u] flag, so every pattern works
    code unit by code unit. *)

Definition code_unit := N.
Definition jsstring := list code_unit.

Definition ch (a : ascii) : code_unit := N_of_ascii a.

(** [lit "abc"] is the JavaScript string literal ['abc']. *)
Definition lit (s : string) : jsstring := map ch (list_ascii_of_string s).

(** [s === p] on strings. *)
Fixpoint str_eqb (s p : jsstring) : bool :=
  match s, p with
  | [], [] => true
  | c :: s', d :: p' => N.eqb c d && str_eqb s' p'
  | _, _ => false
  end.

(** [s.startsWith(p)]. *)
Fixpoint startsWith (s p : jsstring) {struct p} : bool :=
  match p with
  | [] => true
  | d :: p' =>
      match s with
      | [] => false
      | c :: s' => N.eqb c d && startsWith s' p'
      end
  end.

(** [s.endsWith(p)]. *)
Definition endsWith (s p : jsstring) : bool := startsWith (rev s) (rev p).

(** [s.includes(p)]: [p] occurs at some index of [s]. *)
Fixpoint includes (s p : jsstring) : bool :=
  startsWith s p ||
  match s with
  | [] => false
  | _ :: s' => includes s' p
  end.

(** A string is truthy when it is not empty. *)
Definition truthy (s : jsstring) : bool :=
  match s with [] => false | _ => true end.

(** [v || ''] for [v] a string or [undefined]. *)
Definition orEmpty (v : option jsstring) : jsstring :=
  match v with
  | Some s => s
  | None => []
  end.

(** The LineTerminator code points: LF, CR, LS and PS. *)
Definition isLineTerminator (c : code_unit) : bool :=
  N.eqb c 10 || N.eqb c 13 || N.eqb c 8232 || N.eqb c 8233.

Definition notLineTerminator (c : code_unit) : bool := negb (isLineTerminator c).
Definition notAt (c : code_unit) : bool := negb (N.eqb (ch "@") c).
Definition notSlash (c : code_unit) : bool := negb (N.eqb (ch "/") c).

(** The longest prefix of [s] whose characters satisfy [p], and what
    follows it. *)
Fixpoint takeWhile (p : code_unit -> bool) (s : jsstring) : jsstring :=
  match s with
  | c :: s' => if p c then c :: takeWhile p s' else []
  | [] => []
  end.

Fixpoint dropWhile (p : code_unit -> bool) (s : jsstring) : jsstring :=
  match s with
  | c :: s' => if p c then dropWhile p s' else s
  | [] => []
  end.

(** ** Regular expressions

    The fragment of the pattern grammar that the resolver uses; all the
    quantifiers are greedy. *)

Inductive regex : Type :=
| Empty
| Char (c : code_unit)                       (* a literal character *)
| Dot                                        (* [.] *)
| NotChar (c : code_unit)                    (* [[^c]] *)
| AssertStart                                (* [^] *)
| AssertEnd                                  (* [$] *)
| Seq (r1 r2 : regex)
| Alt (r1 r2 : regex)                        (* [r1|r2] *)
| Group (k : nat) (r : regex)                (* the k-th capturing group *)
| Quant (min : nat) (max : option nat) (r : regex).

Definition Opt := Quant 0 (Some 1).          (* [r?] *)
Definition Star := Quant 0 None.             (* [r*] *)
Definition Plus := Quant 1 None.             (* [r+] *)

Fixpoint str (s : jsstring) : regex :=
  match s with
  | [] => Empty
  | c :: s' => Seq (Char c) (str s')
  end.

Declare Scope regex_scope.
Delimit Scope regex_scope with re.
Bind Scope regex_scope with regex.
Infix ">>" := Seq (at level 41, right associativity) : regex_scope.

(** The identifiers of the capturing groups inside a pattern, and their
    number. *)
Fixpoint group_ids (r : regex) : list nat :=
  match r with
  | Seq r1 r2 | Alt r1 r2 => group_ids r1 ++ group_ids r2
  | Group k r' => k :: group_ids r'
  | Quant _ _ r' => group_ids r'
  | _ => []
  end.

Definition ngroups (r : regex) : nat := List.length (group_ids r).

(** ** Matching

    A match state is the end index reached in the input, the input that is
    left from there on, and the captures of the groups 1, 2, ...
    ([None] is [undefined]). *)

Record MatchState : Type := mkState {
  endIndex : nat;
  rest : jsstring;
  captures : list (option jsstring)
}.

Fixpoint update (A : Type) (k : nat) (v : A) (l : list A) : list A :=
  match l with
  | [] => []
  | h :: t =>
      match k with
      | 0 => v :: t
      | S k' => h :: update k' v t
      end
  end.

Definition set_capture (k : nat) (v : option jsstring) (x : MatchState) : MatchState :=
  mkState (endIndex x) (rest x) (update (pred k) v (captures x)).

Definition clear_captures (ids : list nat) (x : MatchState) : MatchState :=
  fold_left (fun y k => set_capture k None y) ids x.

(** A matcher lists the states in which a pattern can end, in the order in
    which backtracking tries them; the continuation of the specification
    is applied to them from left to right. *)
Definition Matcher := MatchState -> list MatchState.

(** CharacterSetMatcher: one code unit of the set [p] is read. *)
Definition CharacterSetMatcher (p : code_unit -> bool) : Matcher :=
  fun x =>
    match rest x with
    | c :: s => if p c then [mkState (S (endIndex x)) s (captures x)] else []
    | [] => []
    end.

(** RepeatMatcher of the specification: an iteration that matches the empty
    string once [min] is reached is rejected, and the captures of the
    repeated atom are reset before each iteration.  The recursion is on
    [fuel]: an iteration either lowers [min] or reads input, so that
    [min] plus the length of the input left, plus one, is enough
    ([RepeatMatcher_fuel]). *)
Fixpoint RepeatMatcher (fuel : nat) (m : Matcher) (ids : list nat)
    (min : nat) (max : option nat) (x : MatchState) : list MatchState :=
  match fuel with
  | 0 => []
  | S fuel' =>
      match max with
      | Some 0 => [x]
      | _ =>
          let d := fun y : MatchState =>
            if (min =? 0) && (endIndex y =? endIndex x) then []
            else RepeatMatcher fuel' m ids (pred min) (option_map pred max) y in
          let xr := clear_captures ids x in
          if min =? 0 then flat_map d (m xr) ++ [x]
          else flat_map d (m xr)
      end
  end.

(** The matcher of a pattern.  A group records the input read by its
    body. *)
Fixpoint matcher (r : regex) : Matcher :=
  fun x =>
    match r with
    | Empty => [x]
    | Char c => CharacterSetMatcher (N.eqb c) x
    | Dot => CharacterSetMatcher (fun c => negb (isLineTerminator c)) x
    | NotChar c => CharacterSetMatcher (fun d => negb (N.eqb c d)) x
    | AssertStart => if endIndex x =? 0 then [x] else []
    | AssertEnd => match rest x with [] => [x] | _ => [] end
    | Seq r1 r2 => flat_map (matcher r2) (matcher r1 x)
    | Alt r1 r2 => matcher r1 x ++ matcher r2 x
    | Group k r' =>
        map (fun y =>
               set_capture k (Some (firstn (endIndex y - endIndex x) (rest x))) y)
            (matcher r' x)
    | Quant min max r' =>
        RepeatMatcher (S (S (min + List.length (rest x)))) (matcher r')
                      (group_ids r') min max x
    end.

(** RegExpBuiltinExec for a pattern without flags: the match is tried at
    the indices 0, 1, ... of the input; the result is the array of the
    matched substring and the captures, or [None] for [null]. *)
Fixpoint exec_from (r : regex) (i : nat) (s : jsstring) : option (list (option jsstring)) :=
  match matcher r (mkState i s (repeat None (ngroups r))) with
  | y :: _ => Some (Some (firstn (endIndex y - i) s) :: captures y)
  | [] =>
      match s with
      | [] => None
      | _ :: s' => exec_from r (S i) s'
      end
  end.

(** [s.match(r)] for a pattern without the [g] flag. *)
Definition String_match (s : jsstring) (r : regex) : option (list (option jsstring)) :=
  exec_from r 0 s.

(** ** Completions *)

Inductive error : Type := TypeError.

Inductive completion (A : Type) : Type :=
| Normal (a : A)
| Throw (e : error).
Arguments Throw {A} e.

Definition bind (A B : Type) (c : completion A) (f : A -> completion B) : completion B :=
  match c with
  | Normal a => f a
  | Throw e => Throw e
  end.

Notation "x <- c ;; k" := (bind c (fun x => k))
  (at level 61, c at next level, right associativity).

(** [a[i]] on the result of [match]: reading a property of [null] throws a
    TypeError, an index past the end reads [undefined]. *)
Definition index (a : option (list (option jsstring))) (i : nat) : completion (option jsstring) :=
  match a with
  | None => Throw TypeError
  | Some l => Normal (nth i l None)
  end.

Definition isNull (A : Type) (a : option A) : bool :=
  match a with None => true | Some _ => false end.

(** The value a promise is fulfilled with. *)
Inductive promise (A : Type) : Type := Promise_resolve (a : A).

(** ** The patterns of the resolver *)

Open Scope regex_scope.

(** The pattern "/^file:/". *)
Definition re_file : regex := AssertStart >> str (lit "file:").

(** The pattern of the local-path suffix: "^file:", an optional group 1
    around a starred dot, and "$". *)
Definition re_file_path : regex :=
  AssertStart >> str (lit "file:") >> Opt (Group 1 (Star Dot)) >> AssertEnd.

(** The pattern "/^.+\.(tgz|tar\.gz)$/"; [archive_tail] is what follows
    the leading ".+". *)
Definition archive_tail : regex :=
  Char (ch ".") >> Group 1 (Alt (str (lit "tgz")) (str (lit "tar.gz"))) >> AssertEnd.

Definition re_archive : regex := AssertStart >> Plus Dot >> archive_tail.

(** The pattern "/^(@[^/]+\/)?([^@]+)?(@.+)?$/" and its three groups. *)
Definition G1 : regex := Group 1 (Char (ch "@") >> Plus (NotChar (ch "/")) >> Char (ch "/")).
Definition G2 : regex := Group 2 (Plus (NotChar (ch "@"))).
Definition G3 : regex := Group 3 (Char (ch "@") >> Plus Dot).

Definition re_package : regex :=
  AssertStart >> Opt G1 >> Opt G2 >> Opt G3 >> AssertEnd.

Close Scope regex_scope.

(** ** The resolver *)

Section Resolver.

(** [path.resolve(a, b)] of Node on two strings.  Node's [path] module is
    not part of the repository; the resolver is parametric in it. *)
Variable path_resolve_strings : jsstring -> jsstring -> jsstring.

(** [path.resolve] validates its arguments from the last one on and throws
    a TypeError on an argument that is not a string. *)
Definition path_resolve (a : jsstring) (b : option jsstring) : completion jsstring :=
  match b with
  | None => Throw TypeError
  | Some p => Normal (path_resolve_strings a p)
  end.

(** [template] is [None] when the argument is absent.  The function is not
    [async]: an exception is thrown to the caller, and the value returned is
    [Promise.resolve(templateToInstall)]. *)
Definition getTemplateInstallPackage (template : option jsstring)
    (programDirectory : jsstring) : completion (promise jsstring) :=
  let templateToInstall := lit "tjs-template" in
  match template with
  | None => Normal (Promise_resolve templateToInstall)
  | Some template =>
      if negb (truthy template) then Normal (Promise_resolve templateToInstall)
      else if negb (isNull (String_match template re_file)) then
        suffix <- index (String_match template re_file_path) 1 ;;
        resolved <- path_resolve programDirectory suffix ;;
        Normal (Promise_resolve (lit "file:" ++ resolved))
      else if includes template (lit "://")
              || negb (isNull (String_match template re_archive)) then
        Normal (Promise_resolve template)
      else
        let packageMatch := String_match template re_package in
        scope <- index packageMatch 1 ;;
        templateName <- index packageMatch 2 ;;
        version <- index packageMatch 3 ;;
        let scope := orEmpty scope in
        let templateName := orEmpty templateName in
        let version := orEmpty version in
        if str_eqb templateName templateToInstall
           || startsWith templateName (templateToInstall ++ lit "-") then
          Normal (Promise_resolve (scope ++ templateName ++ version))
        else if truthy version && negb (truthy scope) && negb (truthy templateName) then
          Normal (Promise_resolve (version ++ lit "/" ++ templateToInstall))
        else
          Normal (Promise_resolve
                    (scope ++ templateToInstall ++ lit "-" ++ templateName ++ version))
  end.

End Resolver.

(** A path module that joins its arguments with a slash; it instantiates
    the resolver in the examples. *)
Definition join_resolve (a b : jsstring) : jsstring := a ++ lit "/" ++ b.

(** A path module that reads the working directory of the process, as
    [path.resolve] of Node does when no argument is absolute: an absolute
    path is returned, a relative path is joined to an absolute base
    directory, and a relative base directory is joined to the working
    directory first.  The segments are not normalised. *)
Definition cwd_resolve (cwd a b : jsstring) : jsstring :=
  if startsWith b (lit "/") then b
  else if startsWith a (lit "/") then join_resolve a b
  else join_resolve cwd (join_resolve a b).

(** [resolves_to t r]: called on the literal [t] and the empty base
    directory, the resolver returns a promise fulfilled with the literal
    [r]. *)
Definition resolves_to (t r : string) : Prop :=
  getTemplateInstallPackage join_resolve (Some (lit t)) []
  = Normal (Promise_resolve (lit r)).

(** ** The patterns as parsers

    What each pattern computes, written as a function on the input; the
    lemmas of the second part prove that [String_match] agrees with them. *)

(** The states of a starred character class, the longest run first. *)
Fixpoint class_star (p : code_unit -> bool) (i : nat) (s : jsstring)
    (caps : list (option jsstring)) : list MatchState :=
  match s with
  | c :: s' =>
      if p c then class_star p (S i) s' caps ++ [mkState i s caps]
      else [mkState i s caps]
  | [] => [mkState i [] caps]
  end.

Definition class_pred (r : regex) : option (code_unit -> bool) :=
  match r with
  | Char c => Some (N.eqb c)
  | Dot => Some notLineTerminator
  | NotChar c => Some (fun d => negb (N.eqb c d))
  | _ => None
  end.

(** Group 1 of the local-path pattern on the suffix after "file:". *)
Definition parse_file_suffix (s : jsstring) : option (option jsstring) :=
  match s with
  | [] => Some None
  | _ :: _ => if forallb notLineTerminator s then Some (Some s) else None
  end.

(** The version group up to the end of the input. *)
Definition parse_version (w : jsstring) : option (option jsstring) :=
  match w with
  | [] => Some None
  | c :: v =>
      if N.eqb (ch "@") c && truthy v && forallb notLineTerminator v
      then Some (Some w) else None
  end.

(** The name and version groups up to the end of the input. *)
Definition parse_name_version (w : jsstring) : option (option jsstring * option jsstring) :=
  let name := takeWhile notAt w in
  match parse_version (dropWhile notAt w) with
  | Some version => Some (if truthy name then Some name else None, version)
  | None => None
  end.

(** The scope group: the scope and the input after it. *)
Definition parse_scope (t : jsstring) : option (jsstring * jsstring) :=
  match t with
  | c :: u =>
      if N.eqb (ch "@") c then
        match takeWhile notSlash u, dropWhile notSlash u with
        | _ :: _, d :: w =>
            if N.eqb (ch "/") d then Some (c :: takeWhile notSlash u ++ [d], w)
            else None
        | _, _ => None
        end
      else None
  | [] => None
  end.

(** The whole package pattern: the match with the scope group is tried
    first, the match without it second. *)
Definition parse_package (t : jsstring)
  : option (option jsstring * option jsstring * option jsstring) :=
  let skipped :=
    match parse_name_version t with
    | Some (name, version) => Some (None, name, version)
    | None => None
    end in
  match parse_scope t with
  | Some (scope, w) =>
      match parse_name_version w with
      | Some (name, version) => Some (Some scope, name, version)
      | None => skipped
      end
  | None => skipped
  end.

(** ** The branches of the resolver on a decomposed reference *)

(** Rules 3a, 3b and 3c of the package-style branch on the three groups. *)
Definition canonical_reference (scope name version : option jsstring) : jsstring :=
  let templateToInstall := lit "tjs-template" in
  let scope := orEmpty scope in
  let templateName := orEmpty name in
  let version := orEmpty version in
  if str_eqb templateName templateToInstall
     || startsWith templateName (templateToInstall ++ lit "-") then
    scope ++ templateName ++ version
  else if truthy version && negb (truthy scope) && negb (truthy templateName) then
    version ++ lit "/" ++ templateToInstall
  else
    scope ++ templateToInstall ++ lit "-" ++ templateName ++ version.

(** The input reaches the package-style branch. *)
Definition package_style (t : jsstring) : bool :=
  truthy t && negb (startsWith t (lit "file:")) && negb (includes t (lit "://"))
  && isNull (String_match t re_archive).

(** ** Reading forward

    [extends x y]: the state [y] is reached from [x] by reading input. *)
Definition extends (x y : MatchState) : Prop :=
  List.length (rest y) <= List.length (rest x)
  /\ endIndex y + List.length (rest y) = endIndex x + List.length (rest x).

Definition forward (m : Matcher) : Prop :=
  forall x y, In y (m x) -> extends x y.

(** * The other functions of createToolchain.js *)

(** ** Further string and array methods *)

(** [differs c d]: the code unit [d] is not [c]. *)
Definition differs (c d : code_unit) : bool := negb (N.eqb c d).

(** [s.split(sep)] for a separator [sep] of one code unit [c]: the pieces
    of [s] between the occurrences of [c]. *)
Fixpoint String_split (c : code_unit) (s : jsstring) : list jsstring :=
  match s with
  | [] => [[]]
  | d :: s' =>
      if N.eqb c d then [] :: String_split c s'
      else
        match String_split c s' with
        | piece :: pieces => (d :: piece) :: pieces
        | [] => [[d]]
        end
  end.

(** [a.join(sep)] on an array of strings. *)
Fixpoint Array_join (sep : jsstring) (a : list jsstring) : jsstring :=
  match a with
  | [] => []
  | [s] => s
  | s :: a' => s ++ sep ++ Array_join sep a'
  end.

(** [s.charAt(0)] and [s.substr(1)]. *)
Definition charAt0 (s : jsstring) : jsstring := firstn 1 s.
Definition substr1 (s : jsstring) : jsstring := skipn 1 s.

(** [a.includes(s)] on an array of strings. *)
Definition Array_includes (a : list jsstring) (s : jsstring) : bool :=
  existsb (str_eqb s) a.

(** ** getPackageInfo *)

Open Scope regex_scope.

(** The pattern of a git URL: group 1 is "[^/]+", then "\.git", an
    optional group 2 of "#" and a starred dot, and "$". *)
Definition re_git : regex :=
  Group 1 (Plus (NotChar (ch "/"))) >> str (lit ".git")
  >> Opt (Group 2 (Char (ch "#") >> Star Dot)) >> AssertEnd.

(** The pattern "/.+@/". *)
Definition re_versioned : regex := Plus Dot >> Char (ch "@").

Close Scope regex_scope.

(** What [getPackageInfo] returns: a promise fulfilled with an object of
    the fields [name] and [version] ([None] is [undefined]), or one of the
    two results that are read from the file system. *)
Inductive packageInfo : Type :=
| NameVersion (name version : option jsstring)
    (* Promise.resolve({name, version}) *)
| Manifest (file : jsstring)
    (* the fields name and version of require(file) *)
| Archive (installPackage : jsstring).
    (* the promise of the archive branch: the package.json inside the
       archive, or a name guessed from the file name *)

Section PackageInfo.

(** [path.join(a, b)] of Node on two strings. *)
Variable path_join_strings : jsstring -> jsstring -> jsstring.

(** [path.join] throws a TypeError on an argument that is not a string. *)
Definition path_join (a : option jsstring) (b : jsstring) : completion jsstring :=
  match a with
  | None => Throw TypeError
  | Some p => Normal (path_join_strings p b)
  end.

Definition getPackageInfo (installPackage : jsstring) : completion packageInfo :=
  if negb (isNull (String_match installPackage re_archive)) then
    Normal (Archive installPackage)
  else if startsWith installPackage (lit "git+") then
    name <- index (String_match installPackage re_git) 1 ;;
    Normal (NameVersion name None)
  else if negb (isNull (String_match installPackage re_versioned)) then
    Normal (NameVersion
              (Some (charAt0 installPackage
                     ++ nth 0 (String_split (ch "@") (substr1 installPackage)) []))
              (nth_error (String_split (ch "@") installPackage) 1))
  else if negb (isNull (String_match installPackage re_file)) then
    installPackagePath <- index (String_match installPackage re_file_path) 1 ;;
    file <- path_join installPackagePath (lit "package.json") ;;
    Normal (Manifest file)
  else
    Normal (NameVersion (Some installPackage) None).

End PackageInfo.

(** The first two steps of the chain of [createProject]: the reference to
    install, and the package information that is read from it.  An
    exception of the resolver is thrown out of [createProject]; an
    exception of [getPackageInfo] is thrown inside [then] and rejects the
    chain. *)
Definition templatePackageInfo
    (path_resolve_strings path_join_strings : jsstring -> jsstring -> jsstring)
    (template : option jsstring) (programDirectory : jsstring)
  : completion (jsstring * completion packageInfo) :=
  r <- getTemplateInstallPackage path_resolve_strings template programDirectory ;;
  match r with
  | Promise_resolve templateToInstall =>
      Normal (templateToInstall, getPackageInfo path_join_strings templateToInstall)
  end.

(** The name of the package of a resolved reference: the name itself when
    it is in the family of the default template, the prefixed name
    otherwise. *)
Definition canonical_name (name : jsstring) : jsstring :=
  if str_eqb name (lit "tjs-template") || startsWith name (lit "tjs-template-")
  then name else lit "tjs-template-" ++ name.

(** ** install *)


(** Why a promise of the installation chain is rejected: [install] rejects
    with an object that holds the failed command, an exception that is
    thrown inside [then] rejects with the error. *)
Inductive reason : Type :=
| FailedCommand (command : jsstring)
| Exception (e : error).



(** ** The directory of the project

    A directory is the list of the names of its entries, as [readdirSync]
    returns it; [removeSync] removes the entry of a name. *)
Definition directory := list jsstring.

Definition removeSync (file : jsstring) (dir : directory) : directory :=
  filter (fun f => negb (str_eqb f file)) dir.

(** *** validateProjectDirectory *)

Definition validFiles : list jsstring :=
  [lit ".DS_Store"; lit ".git"; lit ".gitattributes"; lit ".gitignore";
   lit ".gitlab-ci.yml"; lit ".hg"; lit ".hgcheck"; lit ".hgignore"; lit ".idea";
   lit ".npmignore"; lit ".travis.yml"; lit "docs"; lit "LICENSE"; lit "README.md";
   lit "mkdocs.yml"; lit "Thumbs.db"].

Definition errorLogFilePatterns : list jsstring :=
  [lit "npm-debug.log"; lit "yarn-error.log"; lit "yarn-debug.log"].

Definition isErrorLog (file : jsstring) : bool :=
  existsb (fun pattern => startsWith file pattern) errorLogFilePatterns.

(** The pattern "/\.iml$/". *)
Definition re_iml : regex := Seq (str (lit ".iml")) AssertEnd.

(** [r.test(s)]. *)
Definition RegExp_test (r : regex) (s : jsstring) : bool :=
  negb (isNull (String_match s r)).

Definition conflicts (dir : directory) : list jsstring :=
  filter (fun file => negb (isErrorLog file))
    (filter (fun file => negb (RegExp_test re_iml file))
       (filter (fun file => negb (Array_includes validFiles file)) dir)).

(** A file that the three filters of [conflicts] let pass. *)
Definition allowed (file : jsstring) : bool :=
  Array_includes validFiles file || endsWith file (lit ".iml") || isErrorLog file.

(** The function either lists the conflicts and exits with the status 1,
    or removes the error logs and returns. *)
Inductive validation : Type :=
| Conflicting (files : list jsstring)
| Validated (dir : directory).

Definition validateProjectDirectory (dir : directory) : validation :=
  match conflicts dir with
  | (_ :: _) as files => Conflicting files
  | [] =>
      Validated
        (fold_left (fun fs file => if isErrorLog file then removeSync file fs else fs)
                   dir dir)
  end.

(** *** The handler of a rejected installation *)

Definition knownGeneratedFiles : list jsstring :=
  [lit "package.json"; lit "yarn.lock"; lit "node_modules"].

Definition generated (file : jsstring) : bool :=
  Array_includes knownGeneratedFiles file.

(** What the handler prints about the reason. *)
Inductive report : Type :=
| CommandFailed (command : jsstring)
| UnexpectedError.

Definition abort_report (r : reason) : report :=
  match r with
  | FailedCommand command =>
      if truthy command then CommandFailed command else UnexpectedError
  | Exception _ => UnexpectedError
  end.

(** How the handler ends.  When no entry remains, the message about
    deleting the directory reads [appName], which [createProject] does not
    declare: a ReferenceError is thrown before [process.chdir] and
    [fs.removeSync] are reached, so the directory stays in place, "Done."
    is not printed and [process.exit] is not called. *)
Inductive handler_end : Type :=
| ExitStatus1                (* "Done.", then process.exit(1) *)
| ThrowsReferenceError.      (* appName is not defined *)

(** The directory after the handler has run, and how the handler ends. *)
Definition abort_cleanup (dir : directory) : directory * handler_end :=
  let remaining :=
    fold_left
      (fun fs file =>
         fold_left
           (fun fs' fileToMatch =>
              if str_eqb file fileToMatch then removeSync file fs' else fs')
           knownGeneratedFiles fs)
      dir dir in
  match remaining with
  | [] => (remaining, ThrowsReferenceError)
  | _ :: _ => (remaining, ExitStatus1)
  end.

(** [interleaving l r m]: the listing [m] holds the entries of [l] and the
    entries of [r], each in its order. *)
Fixpoint interleaving (l r m : list jsstring) : bool :=
  match m with
  | [] => match l, r with [], [] => true | _, _ => false end
  | x :: m' =>
      match l with
      | y :: l' => str_eqb x y && interleaving l' r m'
      | [] => false
      end
      || match r with
         | y :: r' => str_eqb x y && interleaving l r' m'
         | [] => false
         end
  end.

(** ** validateThatNPMCanReadCWD *)

Inductive cwd_check : Type :=
| Proceed
| WrongDirectory (npmCWD : jsstring).      (* the message, then process.exit(1) *)

(** [childOutput] is the joined output of "npm config list", [None] when
    spawning it has thrown. *)
Definition validateThatNPMCanReadCWD (childOutput : option jsstring)
    (cwd : jsstring) : cwd_check :=
  match childOutput with
  | None => Proceed
  | Some childOutput =>
      let prefix := lit "; cwd = " in
      let lines := String_split 10%N childOutput in
      match find (fun line => startsWith line prefix) lines with
      | None => Proceed
      | Some line =>
          let npmCWD := skipn (List.length prefix) line in
          if str_eqb npmCWD cwd then Proceed else WrongDirectory npmCWD
      end
  end.

(** * Properties of the matcher *)

(** ** Lists and strings *)

Lemma takeWhile_dropWhile p s : takeWhile p s ++ dropWhile p s = s.
Proof.
  induction s as [|c s IH]; simpl; [reflexivity|].
  destruct (p c); simpl; [now rewrite IH | reflexivity].
Qed.

Lemma takeWhile_forallb p s : forallb p (takeWhile p s) = true.
Proof.
  induction s as [|c s IH]; simpl; [reflexivity|].
  destruct (p c) eqn:E; simpl; [now rewrite E | reflexivity].
Qed.

Lemma dropWhile_head p s c s' : dropWhile p s = c :: s' -> p c = false.
Proof.
  induction s as [|d s IH]; simpl; [discriminate|].
  destruct (p d) eqn:E; [exact IH|].
  intros H; injection H as -> _; exact E.
Qed.

Lemma takeWhile_app p a b :
  forallb p a = true ->
  takeWhile p (a ++ b) = a ++ takeWhile p b.
Proof.
  induction a as [|c a IH]; simpl; [reflexivity|].
  intros H; apply andb_prop in H as [-> H]. now rewrite IH.
Qed.

Lemma dropWhile_app p a b :
  forallb p a = true ->
  dropWhile p (a ++ b) = dropWhile p b.
Proof.
  induction a as [|c a IH]; simpl; [reflexivity|].
  intros H; apply andb_prop in H as [-> H]. now rewrite IH.
Qed.

Lemma takeWhile_stop p b :
  match b with [] => True | c :: _ => p c = false end ->
  takeWhile p b = [] /\ dropWhile p b = b.
Proof.
  destruct b as [|c b]; simpl; [now split|]. intros ->; now split.
Qed.

Lemma str_eqb_eq s p : str_eqb s p = true <-> s = p.
Proof.
  revert p; induction s as [|c s IH]; intros [|d p]; simpl; split;
    try reflexivity; try discriminate.
  - intros H; apply andb_prop in H as [H1 H2].
    apply N.eqb_eq in H1; apply IH in H2; now subst.
  - intros H; injection H as -> ->.
    rewrite N.eqb_refl; simpl; now apply IH.
Qed.

Lemma startsWith_app s p : startsWith s p = true <-> exists s', s = p ++ s'.
Proof.
  revert s; induction p as [|d p IH]; intros s; simpl.
  - split; [intros _; now exists s | reflexivity].
  - destruct s as [|c s]; split.
    + discriminate.
    + intros [s' H]; discriminate.
    + intros H; apply andb_prop in H as [H1 H2].
      apply N.eqb_eq in H1; apply IH in H2 as [s' ->]; subst. now exists s'.
    + intros [s' H]; injection H as -> ->.
      rewrite N.eqb_refl; simpl; apply IH; now exists s'.
Qed.

Lemma startsWith_skipn s p :
  startsWith s p = true -> s = p ++ skipn (List.length p) s.
Proof.
  intros H; apply startsWith_app in H as [s' ->].
  now rewrite skipn_app, skipn_all, Nat.sub_diag.
Qed.

Lemma endsWith_app s p : endsWith s p = true <-> exists s', s = s' ++ p.
Proof.
  unfold endsWith; rewrite startsWith_app; split.
  - intros [s' H]. exists (rev s').
    rewrite <- (rev_involutive s), H, rev_app_distr, rev_involutive. reflexivity.
  - intros [s' ->]. exists (rev s'). now rewrite rev_app_distr.
Qed.

Lemma includes_app s p : includes s p = true <-> exists a b, s = a ++ p ++ b.
Proof.
  induction s as [|c s IH]; simpl.
  - rewrite orb_false_r, startsWith_app; split.
    + intros [s' H]; now exists [], s'.
    + intros (a & b & H). destruct a; [now exists b|discriminate].
  - rewrite orb_true_iff, startsWith_app, IH; split.
    + intros [[s' H] | (a & b & ->)]; [now exists [], s' | now exists (c :: a), b].
    + intros (a & b & H). destruct a as [|c' a]; [left; now exists b|].
      right; injection H as _ ->; now exists a, b.
Qed.

(** ** Character classes under a greedy quantifier *)

Lemma matcher_class r p :
  class_pred r = Some p ->
  group_ids r = [] /\ forall x, matcher r x = CharacterSetMatcher p x.
Proof.
  destruct r; simpl; try discriminate; intros H; injection H as <-; now split.
Qed.

Lemma CharacterSetMatcher_eq p i s caps :
  CharacterSetMatcher p (mkState i s caps)
  = match s with
    | c :: s' => if p c then [mkState (S i) s' caps] else []
    | [] => []
    end.
Proof. reflexivity. Qed.

Lemma RepeatMatcher_S fuel m ids min max x :
  RepeatMatcher (S fuel) m ids min max x
  = match max with
    | Some 0 => [x]
    | _ =>
        let d := fun y : MatchState =>
          if (min =? 0) && (endIndex y =? endIndex x) then []
          else RepeatMatcher fuel m ids (pred min) (option_map pred max) y in
        let xr := clear_captures ids x in
        if min =? 0 then flat_map d (m xr) ++ [x]
        else flat_map d (m xr)
    end.
Proof. reflexivity. Qed.

Lemma RepeatMatcher_class_star p s : forall fuel i caps,
  List.length s < fuel ->
  RepeatMatcher fuel (CharacterSetMatcher p) [] 0 None (mkState i s caps)
  = class_star p i s caps.
Proof.
  induction s as [|c s IH]; intros [|fuel] i caps Hf; simpl in Hf; try lia.
  - reflexivity.
  - cbn [RepeatMatcher Nat.eqb pred option_map clear_captures fold_left andb].
    rewrite CharacterSetMatcher_eq; cbn [class_star].
    destruct (p c); [|reflexivity].
    cbn [flat_map endIndex]. rewrite app_nil_r.
    replace (S i =? i)%nat with false by (symmetry; apply Nat.eqb_neq; lia).
    now rewrite IH by lia.
Qed.

Lemma RepeatMatcher_ext fuel m1 m2 ids min max x :
  (forall y, m1 y = m2 y) ->
  RepeatMatcher fuel m1 ids min max x = RepeatMatcher fuel m2 ids min max x.
Proof.
  intros E; revert min max x; induction fuel as [|fuel IH]; intros; simpl;
    [reflexivity|].
  destruct max as [[|n]|]; try reflexivity; rewrite E;
    destruct (min =? 0)%nat; cbn [andb];
    try (apply (f_equal (fun l => l ++ [x])));
    apply flat_map_ext; intros y; try destruct (_ =? _)%nat; auto.
Qed.

Lemma matcher_Quant min max r x :
  matcher (Quant min max r) x
  = RepeatMatcher (S (S (min + List.length (rest x)))) (matcher r)
                  (group_ids r) min max x.
Proof. reflexivity. Qed.

Lemma matcher_Seq r1 r2 x :
  matcher (Seq r1 r2) x = flat_map (matcher r2) (matcher r1 x).
Proof. reflexivity. Qed.

Lemma matcher_Group k r x :
  matcher (Group k r) x
  = map (fun y => set_capture k (Some (firstn (endIndex y - endIndex x) (rest x))) y)
        (matcher r x).
Proof. reflexivity. Qed.

Lemma matcher_Star r p i s caps :
  class_pred r = Some p ->
  matcher (Star r) (mkState i s caps) = class_star p i s caps.
Proof.
  intros H; apply matcher_class in H as [Hg Hm].
  unfold Star; rewrite matcher_Quant, Hg.
  rewrite (@RepeatMatcher_ext _ _ _ _ _ _ _ Hm).
  apply RepeatMatcher_class_star; simpl; lia.
Qed.

Lemma matcher_Plus r p i s caps :
  class_pred r = Some p ->
  matcher (Plus r) (mkState i s caps)
  = match s with
    | c :: s' => if p c then class_star p (S i) s' caps else []
    | [] => []
    end.
Proof.
  intros H; apply matcher_class in H as [Hg Hm].
  unfold Plus; rewrite matcher_Quant, Hg.
  rewrite (@RepeatMatcher_ext _ _ _ _ _ _ _ Hm).
  rewrite RepeatMatcher_S.
  cbn [Nat.eqb andb pred option_map clear_captures fold_left].
  rewrite CharacterSetMatcher_eq.
  destruct s as [|c s]; [reflexivity|].
  destruct (p c); [|reflexivity].
  cbn [flat_map]. rewrite app_nil_r.
  apply RepeatMatcher_class_star; simpl; lia.
Qed.

(** A continuation that fails in front of a character of the class sees
    only the longest run. *)
Lemma flat_map_class_star p (K : Matcher) :
  (forall j c s caps, p c = true -> K (mkState j (c :: s) caps) = []) ->
  forall s i caps,
    flat_map K (class_star p i s caps)
    = K (mkState (i + List.length (takeWhile p s)) (dropWhile p s) caps).
Proof.
  intros HK; induction s as [|c s IH]; intros i caps; simpl.
  - now rewrite app_nil_r, Nat.add_0_r.
  - destruct (p c) eqn:E; simpl.
    + rewrite flat_map_app, IH; simpl. rewrite (HK _ _ _ _ E), !app_nil_r.
      now rewrite Nat.add_succ_r.
    + now rewrite app_nil_r, Nat.add_0_r.
Qed.

Lemma Plus_then r p (K : Matcher) i s caps :
  class_pred r = Some p ->
  (forall j c s caps, p c = true -> K (mkState j (c :: s) caps) = []) ->
  flat_map K (matcher (Plus r) (mkState i s caps))
  = match takeWhile p s with
    | [] => []
    | _ => K (mkState (i + List.length (takeWhile p s)) (dropWhile p s) caps)
    end.
Proof.
  intros H HK. rewrite (matcher_Plus _ _ _ _ H).
  destruct s as [|c s]; simpl; [reflexivity|].
  destruct (p c); simpl; [|reflexivity].
  rewrite (flat_map_class_star _ _ HK). now rewrite Nat.add_succ_r.
Qed.

Lemma Star_then r p (K : Matcher) i s caps :
  class_pred r = Some p ->
  (forall j c s caps, p c = true -> K (mkState j (c :: s) caps) = []) ->
  flat_map K (matcher (Star r) (mkState i s caps))
  = K (mkState (i + List.length (takeWhile p s)) (dropWhile p s) caps).
Proof.
  intros H HK. rewrite (matcher_Star _ _ _ _ H). now apply flat_map_class_star.
Qed.

(** ** Optional groups, literals and anchors *)

Lemma matcher_Opt r x :
  matcher (Opt r) x
  = flat_map (fun y => if (endIndex y =? endIndex x)%nat then [] else [y])
             (matcher r (clear_captures (group_ids r) x)) ++ [x].
Proof.
  unfold Opt. rewrite matcher_Quant, RepeatMatcher_S.
  cbn [Nat.eqb andb pred option_map].
  apply (f_equal (fun l => l ++ [x])), flat_map_ext; intros y.
  destruct (_ =? _)%nat; reflexivity.
Qed.

Lemma matcher_str p : forall i s caps,
  matcher (str p) (mkState i s caps)
  = if startsWith s p
    then [mkState (i + List.length p) (skipn (List.length p) s) caps]
    else [].
Proof.
  induction p as [|d p IH]; intros i s caps.
  - simpl. now rewrite Nat.add_0_r.
  - cbn [str]. rewrite matcher_Seq. cbn [matcher]. rewrite CharacterSetMatcher_eq.
    destruct s as [|c s]; [reflexivity|]. cbn [startsWith].
    rewrite (N.eqb_sym d c).
    destruct (N.eqb c d); [|reflexivity].
    cbn [flat_map andb]. rewrite IH, app_nil_r.
    destruct (startsWith s p); [|reflexivity].
    cbn [List.length skipn]. now rewrite Nat.add_succ_r.
Qed.

Lemma flat_map_flat_map (A B C : Type) (f : A -> list B) (g : B -> list C) l :
  flat_map g (flat_map f l) = flat_map (fun x => flat_map g (f x)) l.
Proof.
  induction l as [|a l IH]; simpl; [reflexivity|].
  now rewrite flat_map_app, IH.
Qed.

Lemma flat_map_map (A B C : Type) (f : A -> B) (g : B -> list C) l :
  flat_map g (map f l) = flat_map (fun x => g (f x)) l.
Proof.
  induction l as [|a l IH]; simpl; [reflexivity|]. now rewrite IH.
Qed.

Lemma forallb_takeWhile_all p s :
  forallb p s = true -> takeWhile p s = s /\ dropWhile p s = [].
Proof.
  induction s as [|c s IH]; simpl; [now split|].
  intros H; apply andb_prop in H as [-> H]. destruct (IH H) as [-> ->]; now split.
Qed.

Lemma dropWhile_nil_forallb p s : dropWhile p s = [] -> forallb p s = true.
Proof.
  induction s as [|c s IH]; simpl; [reflexivity|].
  destruct (p c); [exact IH | discriminate].
Qed.

Lemma set_capture_eq k v i s caps :
  set_capture k v (mkState i s caps) = mkState i s (update (pred k) v caps).
Proof. reflexivity. Qed.

Lemma matcher_Char c x : matcher (Char c) x = CharacterSetMatcher (N.eqb c) x.
Proof. reflexivity. Qed.

Lemma matcher_AssertEnd i s caps :
  matcher AssertEnd (mkState i s caps)
  = match s with [] => [mkState i s caps] | _ :: _ => [] end.
Proof. reflexivity. Qed.

(** ** The package pattern *)

Lemma matcher_version i w c1 c2 :
  matcher (Opt G3 >> AssertEnd)%re (mkState i w [c1; c2; None])
  = match parse_version w with
    | Some version => [mkState (i + List.length w) [] [c1; c2; version]]
    | None => []
    end.
Proof.
  rewrite matcher_Seq, matcher_Opt, flat_map_app.
  change (clear_captures (group_ids G3) _) with (mkState i w [c1; c2; None]).
  unfold G3. rewrite matcher_Group, matcher_Seq, matcher_Char, CharacterSetMatcher_eq.
  cbn [endIndex rest].
  destruct w as [|c v].
  - simpl. now rewrite Nat.add_0_r.
  - cbn [parse_version]. destruct (N.eqb (ch "@") c); cbn [andb flat_map].
    + rewrite matcher_AssertEnd, !app_nil_r, flat_map_flat_map, flat_map_map.
      rewrite (@Plus_then Dot notLineTerminator); [|reflexivity|].
      * destruct (takeWhile notLineTerminator v) as [|a run] eqn:Erun.
        { destruct v as [|b v]; [reflexivity|]. cbn [truthy andb forallb].
          simpl in Erun. destruct (notLineTerminator b); [discriminate|reflexivity]. }
        cbn [endIndex rest captures set_capture update pred].
        destruct (dropWhile notLineTerminator v) as [|b tl] eqn:Etl.
        { pose proof (dropWhile_nil_forallb _ _ Etl) as Hall. rewrite Hall.
          destruct (forallb_takeWhile_all _ _ Hall) as [Ht _].
          rewrite Ht in Erun. subst v. cbn [truthy andb].
          replace (S i + List.length (a :: run) =? i)%nat with false
            by (symmetry; apply Nat.eqb_neq; simpl; lia).
          cbn [flat_map app]. rewrite set_capture_eq, matcher_AssertEnd.
          replace (S i + List.length (a :: run) - i)
            with (List.length (c :: a :: run)) by (cbn [List.length]; lia).
          rewrite firstn_all. cbn [update pred List.length app]. do 2 f_equal. lia. }
        { assert (forallb notLineTerminator v = false) as ->.
          { rewrite <- (takeWhile_dropWhile notLineTerminator v), Etl, forallb_app.
            simpl. rewrite (dropWhile_head _ _ Etl). now rewrite andb_false_r. }
          rewrite andb_false_r.
          destruct (_ =? _)%nat; reflexivity. }
      * intros j d s caps Hd. destruct (_ =? _)%nat; reflexivity.
    + reflexivity.
Qed.

Lemma clear_captures_rest ids : forall x,
  rest (clear_captures ids x) = rest x /\ endIndex (clear_captures ids x) = endIndex x.
Proof.
  induction ids as [|k ids IH]; intros x; simpl; [now split|].
  destruct (IH (set_capture k None x)) as [-> ->]. now split.
Qed.

Lemma matcher_version_fail j c s caps :
  N.eqb (ch "@") c = false ->
  matcher (Opt G3 >> AssertEnd)%re (mkState j (c :: s) caps) = [].
Proof.
  intros Hc. rewrite matcher_Seq, matcher_Opt, flat_map_app.
  unfold G3 at 1. rewrite matcher_Group, matcher_Seq, matcher_Char.
  unfold CharacterSetMatcher at 1.
  destruct (clear_captures_rest (group_ids G3) (mkState j (c :: s) caps)) as [-> _].
  cbn [rest]. rewrite Hc. reflexivity.
Qed.

Lemma matcher_name_version i w c1 :
  matcher (Opt G2 >> Opt G3 >> AssertEnd)%re (mkState i w [c1; None; None])
  = match parse_name_version w with
    | Some (name, version) => [mkState (i + List.length w) [] [c1; name; version]]
    | None => []
    end.
Proof.
  rewrite matcher_Seq, matcher_Opt, flat_map_app.
  change (clear_captures (group_ids G2) _) with (mkState i w [c1; None; None]).
  unfold G2. rewrite matcher_Group, flat_map_flat_map, flat_map_map.
  rewrite (@Plus_then (NotChar (ch "@")) notAt); [|reflexivity|].
  - unfold parse_name_version. cbn [endIndex rest flat_map]. rewrite app_nil_r.
    pose proof (takeWhile_dropWhile notAt w) as Hw.
    destruct (takeWhile notAt w) as [|a run] eqn:Erun.
    + simpl in Hw. rewrite Hw, matcher_version. cbn [truthy app].
      destruct (parse_version w); reflexivity.
    + rewrite set_capture_eq. cbn [endIndex update pred truthy].
      replace (i + List.length (a :: run) =? i)%nat with false
        by (symmetry; apply Nat.eqb_neq; simpl; lia).
      cbn [flat_map]. rewrite matcher_version, app_nil_r.
      assert (Ha : N.eqb (ch "@") a = false).
      { pose proof (takeWhile_forallb notAt w) as Hall. rewrite Erun in Hall.
        simpl in Hall. apply andb_prop in Hall as [Hall _]. unfold notAt in Hall.
        now destruct (N.eqb (ch "@") a). }
      clear Erun. remember (dropWhile notAt w) as tl eqn:Etl. clear Etl. subst w.
      cbn [app]. rewrite matcher_version_fail by exact Ha. rewrite app_nil_r.
      replace (i + List.length (a :: run) - i) with (List.length (a :: run)) by lia.
      change (a :: run ++ tl) with ((a :: run) ++ tl).
      rewrite firstn_app, firstn_all, Nat.sub_diag, firstn_O, app_nil_r.
      destruct (parse_version tl); [|reflexivity].
      do 2 f_equal. rewrite length_app. lia.
  - intros j c s caps Hc. destruct (_ =? _)%nat; [reflexivity|].
    cbn [flat_map]. rewrite set_capture_eq, matcher_version_fail, app_nil_r; [reflexivity|].
    unfold notAt in Hc. now destruct (N.eqb (ch "@") c).
Qed.

Lemma parse_scope_app t scope w : parse_scope t = Some (scope, w) -> t = scope ++ w.
Proof.
  destruct t as [|c u]; cbn [parse_scope]; [discriminate|].
  destruct (N.eqb (ch "@") c); [|discriminate].
  pose proof (takeWhile_dropWhile notSlash u) as Hu.
  destruct (takeWhile notSlash u) as [|a run]; [discriminate|].
  destruct (dropWhile notSlash u) as [|d w']; [discriminate|].
  destruct (N.eqb (ch "/") d); [|discriminate].
  intros H; injection H as <- <-. rewrite <- Hu. simpl.
  now rewrite <- app_assoc.
Qed.

Lemma matcher_package t :
  matcher (Opt G1 >> Opt G2 >> Opt G3 >> AssertEnd)%re (mkState 0 t [None; None; None])
  = match parse_scope t with
    | Some (scope, w) =>
        match parse_name_version w with
        | Some (name, version) => [mkState (List.length t) [] [Some scope; name; version]]
        | None => []
        end
    | None => []
    end ++
    match parse_name_version t with
    | Some (name, version) => [mkState (List.length t) [] [None; name; version]]
    | None => []
    end.
Proof.
  rewrite matcher_Seq, matcher_Opt, flat_map_app.
  change (clear_captures (group_ids G1) _) with (mkState 0 t [None; None; None]).
  cbn [flat_map]. rewrite matcher_name_version, app_nil_r. cbn [Nat.add].
  f_equal.
  destruct (parse_scope t) as [[scope w]|] eqn:Escope.
  - pose proof (parse_scope_app _ Escope) as Ht. revert Escope.
    unfold G1. rewrite matcher_Group, matcher_Seq, matcher_Char, CharacterSetMatcher_eq.
    destruct t as [|c u]; [discriminate|]. cbn [parse_scope].
    destruct (N.eqb (ch "@") c); [|discriminate].
    cbn [flat_map]. rewrite app_nil_r, matcher_Seq.
    rewrite (@Plus_then (NotChar (ch "/")) notSlash); [|reflexivity|].
    + destruct (takeWhile notSlash u) as [|a run]; [discriminate|].
      rewrite matcher_Char, CharacterSetMatcher_eq.
      destruct (dropWhile notSlash u) as [|d w']; [discriminate|].
      destruct (N.eqb (ch "/") d); [|discriminate].
      intros H; injection H as <- <-.
      cbn [map flat_map endIndex rest]. rewrite set_capture_eq.
      cbn [endIndex Nat.eqb update pred app flat_map]. rewrite matcher_name_version, app_nil_r.
      replace (S (1 + List.length (a :: run)) - 0) with (List.length (c :: (a :: run) ++ [d]))
        by (cbn [List.length]; rewrite length_app; simpl; lia).
      rewrite Ht. change (c :: (a :: run) ++ [d]) with ((c :: (a :: run) ++ [d])).
      rewrite firstn_app, firstn_all, Nat.sub_diag, firstn_O, app_nil_r.
      destruct (parse_name_version w'); [|reflexivity]. destruct p as [name version].
      do 2 f_equal. rewrite length_app. cbn [List.length]. rewrite !length_app. simpl. lia.
    + intros j e s caps He. rewrite matcher_Char, CharacterSetMatcher_eq.
      unfold notSlash in He. now destruct (N.eqb (ch "/") e).
  - revert Escope.
    unfold G1. rewrite matcher_Group, matcher_Seq, matcher_Char, CharacterSetMatcher_eq.
    destruct t as [|c u]; [reflexivity|]. cbn [parse_scope].
    destruct (N.eqb (ch "@") c); [|reflexivity].
    cbn [flat_map]. rewrite app_nil_r, matcher_Seq.
    rewrite (@Plus_then (NotChar (ch "/")) notSlash); [|reflexivity|].
    + destruct (takeWhile notSlash u) as [|a run]; [reflexivity|].
      rewrite matcher_Char, CharacterSetMatcher_eq.
      destruct (dropWhile notSlash u) as [|d w']; [reflexivity|].
      destruct (N.eqb (ch "/") d); [discriminate|reflexivity].
    + intros j e s caps He. rewrite matcher_Char, CharacterSetMatcher_eq.
      unfold notSlash in He. now destruct (N.eqb (ch "/") e).
Qed.

Lemma matcher_AssertStart i s caps :
  matcher AssertStart (mkState i s caps)
  = if (i =? 0)%nat then [mkState i s caps] else [].
Proof. reflexivity. Qed.

Lemma exec_from_anchored r s : forall i,
  exec_from (AssertStart >> r) (S i) s = None.
Proof.
  induction s as [|c s IH]; intros i; cbn [exec_from];
    rewrite matcher_Seq, matcher_AssertStart; cbn [Nat.eqb flat_map];
    [reflexivity | apply IH].
Qed.

Lemma String_match_anchored r t :
  String_match t (AssertStart >> r)
  = match matcher r (mkState 0 t (repeat None (ngroups r))) with
    | y :: _ => Some (Some (firstn (endIndex y) t) :: captures y)
    | [] => None
    end.
Proof.
  unfold String_match. destruct t as [|c t]; cbn [exec_from];
    rewrite matcher_Seq, matcher_AssertStart; cbn [Nat.eqb flat_map];
    rewrite app_nil_r; change (ngroups (AssertStart >> r)) with (ngroups r);
    destruct (matcher r _) as [|y l]; rewrite ?Nat.sub_0_r; try reflexivity.
  apply exec_from_anchored.
Qed.

Lemma String_match_re_package t :
  String_match t re_package
  = match parse_package t with
    | Some (scope, name, version) => Some [Some t; scope; name; version]
    | None => None
    end.
Proof.
  unfold re_package. rewrite String_match_anchored.
  change (repeat None _) with ([None; None; None] : list (option jsstring)).
  rewrite matcher_package. unfold parse_package.
  destruct (parse_scope t) as [[scope w]|];
    [destruct (parse_name_version w) as [[name version]|]|];
    cbn [app endIndex captures]; rewrite ?firstn_all; try reflexivity;
    destruct (parse_name_version t) as [[name version]|];
    cbn [app endIndex captures]; rewrite ?firstn_all; reflexivity.
Qed.

(** ** The local-path patterns *)

Lemma String_match_re_file t :
  isNull (String_match t re_file) = negb (startsWith t (lit "file:")).
Proof.
  unfold re_file. rewrite String_match_anchored, matcher_str.
  destruct (startsWith t (lit "file:")); reflexivity.
Qed.

Lemma matcher_file_suffix i s :
  matcher (Opt (Group 1 (Star Dot)) >> AssertEnd)%re (mkState i s [None])
  = match parse_file_suffix s with
    | Some suffix => [mkState (i + List.length s) [] [suffix]]
    | None => []
    end.
Proof.
  rewrite matcher_Seq, matcher_Opt, flat_map_app.
  change (clear_captures _ _) with (mkState i s [None]).
  rewrite matcher_Group, flat_map_flat_map, flat_map_map.
  rewrite (@Star_then Dot notLineTerminator); [|reflexivity|].
  - cbn [endIndex rest flat_map]. rewrite matcher_AssertEnd, app_nil_r.
    pose proof (takeWhile_dropWhile notLineTerminator s) as Hs.
    pose proof (takeWhile_forallb notLineTerminator s) as Hrun.
    assert (Htl : match dropWhile notLineTerminator s with
                  | [] => True
                  | b :: _ => notLineTerminator b = false
                  end).
    { destruct (dropWhile notLineTerminator s) eqn:E; [exact I|].
      exact (dropWhile_head _ _ E). }
    remember (dropWhile notLineTerminator s) as tl eqn:Etl; clear Etl.
    remember (takeWhile notLineTerminator s) as run eqn:Erun; clear Erun.
    subst s. destruct run as [|a run].
    + cbn [List.length app]. rewrite Nat.add_0_r, Nat.eqb_refl. cbn [flat_map app].
      destruct tl as [|c tl]; [cbn; now rewrite Nat.add_0_r|].
      cbn [parse_file_suffix forallb]. now rewrite Htl.
    + rewrite set_capture_eq. cbn [endIndex update pred].
      replace (i + List.length (a :: run) =? i)%nat with false
        by (symmetry; apply Nat.eqb_neq; simpl; lia).
      cbn [flat_map]. rewrite matcher_AssertEnd.
      cbn [app parse_file_suffix].
      change (a :: run ++ tl) with ((a :: run) ++ tl).
      rewrite forallb_app, Hrun. cbn [andb].
      replace (i + List.length (a :: run) - i) with (List.length (a :: run)) by lia.
      rewrite firstn_app, firstn_all, Nat.sub_diag, firstn_O, app_nil_r.
      destruct tl as [|b tl].
      * now rewrite !app_nil_r.
      * cbn [forallb]. now rewrite Htl.
  - intros j c s' caps _. destruct (_ =? _)%nat; reflexivity.
Qed.

Lemma String_match_re_file_path s :
  String_match (lit "file:" ++ s) re_file_path
  = match parse_file_suffix s with
    | Some suffix => Some [Some (lit "file:" ++ s); suffix]
    | None => None
    end.
Proof.
  unfold re_file_path. rewrite String_match_anchored, matcher_Seq, matcher_str.
  assert (startsWith (lit "file:" ++ s) (lit "file:") = true) as ->
    by (apply startsWith_app; now exists s).
  cbn [flat_map]. rewrite app_nil_r.
  change (skipn _ (lit "file:" ++ s)) with s.
  change (repeat None _) with ([None] : list (option jsstring)).
  rewrite matcher_file_suffix.
  destruct (parse_file_suffix s); [|reflexivity].
  cbn [endIndex captures]. f_equal. f_equal.
  change (0 + List.length (lit "file:")) with 5.
  change (lit "file:" ++ s) with (ch "f" :: ch "i" :: ch "l" :: ch "e" :: ch ":" :: s).
  cbn [firstn Nat.add List.length]. now rewrite firstn_all.
Qed.

(** ** The archive pattern *)

Lemma class_star_In p s : forall i caps y,
  In y (class_star p i s caps) <->
  exists k, k <= List.length (takeWhile p s) /\ y = mkState (i + k) (skipn k s) caps.
Proof.
  induction s as [|c s IH]; intros i caps y; cbn [class_star takeWhile].
  - split.
    + intros [<-|[]]. exists 0. now rewrite Nat.add_0_r.
    + intros (k & Hk & ->). simpl in Hk. replace k with 0 by lia.
      left. now rewrite Nat.add_0_r.
  - destruct (p c).
    + rewrite in_app_iff, IH. split.
      * intros [(k & Hk & ->) | [<-|[]]].
        -- exists (S k). cbn [List.length skipn]. split; [lia|]. now rewrite Nat.add_succ_r.
        -- exists 0. cbn [skipn]. split; [lia|]. now rewrite Nat.add_0_r.
      * intros (k & Hk & ->). destruct k as [|k].
        -- right; left. now rewrite Nat.add_0_r.
        -- left. exists k. cbn [List.length] in Hk. split; [lia|].
           cbn [skipn]. now rewrite Nat.add_succ_r.
    + split.
      * intros [<-|[]]. exists 0. cbn [skipn]. split; [simpl; lia|]. now rewrite Nat.add_0_r.
      * intros (k & Hk & ->). simpl in Hk. replace k with 0 by lia.
        left. now rewrite Nat.add_0_r.
Qed.

Lemma Plus_In r p i s caps y :
  class_pred r = Some p ->
  In y (matcher (Plus r) (mkState i s caps)) <->
  exists k, 1 <= k <= List.length (takeWhile p s)
            /\ y = mkState (i + k) (skipn k s) caps.
Proof.
  intros H. rewrite (matcher_Plus _ _ _ _ H).
  destruct s as [|c s]; cbn [takeWhile].
  - split; [intros [] | intros (k & Hk & _); simpl in Hk; lia].
  - destruct (p c).
    + rewrite class_star_In. split.
      * intros (k & Hk & ->). exists (S k). cbn [List.length skipn].
        split; [lia|]. now rewrite Nat.add_succ_r.
      * intros (k & Hk & ->). destruct k as [|k]; [lia|].
        exists k. cbn [List.length] in Hk. split; [lia|].
        cbn [skipn]. now rewrite Nat.add_succ_r.
    + split; [intros [] | intros (k & Hk & _); simpl in Hk; lia].
Qed.

Lemma matcher_Alt r1 r2 x : matcher (Alt r1 r2) x = matcher r1 x ++ matcher r2 x.
Proof. reflexivity. Qed.

Lemma skipn_nil_startsWith s p :
  startsWith s p = true -> skipn (List.length p) s = [] -> s = p.
Proof.
  intros H1 H2. rewrite (startsWith_skipn _ _ H1), H2. apply app_nil_r.
Qed.

Lemma archive_tail_inv j s caps y :
  In y (matcher archive_tail (mkState j s caps)) ->
  s = lit ".tgz" \/ s = lit ".tar.gz".
Proof.
  unfold archive_tail. rewrite matcher_Seq, matcher_Char, CharacterSetMatcher_eq.
  destruct s as [|c s]; [intros []|].
  destruct (N.eqb (ch ".") c) eqn:Ec; [|intros []].
  apply N.eqb_eq in Ec; subst c.
  cbn [flat_map]. rewrite app_nil_r, matcher_Seq, matcher_Group, matcher_Alt, !matcher_str.
  rewrite flat_map_map, in_flat_map. intros (z & Hz & Hy).
  apply in_app_or in Hz.
  destruct Hz as [Hz|Hz];
    [destruct (startsWith s (lit "tgz")) eqn:E | destruct (startsWith s (lit "tar.gz")) eqn:E];
    try (now destruct Hz); destruct Hz as [<-|[]];
    rewrite set_capture_eq, matcher_AssertEnd in Hy;
    destruct (skipn _ s) eqn:Es; try (now destruct Hy);
    rewrite (skipn_nil_startsWith _ _ E Es); [now left | now right].
Qed.

Lemma archive_tail_tgz j caps : matcher archive_tail (mkState j (lit ".tgz") caps) <> [].
Proof. discriminate. Qed.

Lemma archive_tail_tar_gz j caps : matcher archive_tail (mkState j (lit ".tar.gz") caps) <> [].
Proof. discriminate. Qed.

Lemma String_match_re_archive t :
  isNull (String_match t re_archive) = false <->
  exists stem ext,
    t = stem ++ ext /\ stem <> [] /\ forallb notLineTerminator stem = true
    /\ (ext = lit ".tgz" \/ ext = lit ".tar.gz").
Proof.
  unfold re_archive. rewrite String_match_anchored, matcher_Seq.
  change (repeat None _) with ([None] : list (option jsstring)).
  set (l := flat_map (matcher archive_tail) _).
  assert (Hl : (exists y, In y l) <->
               exists stem ext, t = stem ++ ext /\ stem <> []
                 /\ forallb notLineTerminator stem = true
                 /\ (ext = lit ".tgz" \/ ext = lit ".tar.gz")).
  { unfold l. split.
    - intros (y & Hy). apply in_flat_map in Hy as (z & Hz & Hy).
      apply (@Plus_In Dot notLineTerminator) in Hz as (k & Hk & ->); [|reflexivity].
      apply archive_tail_inv in Hy.
      exists (firstn k t), (skipn k t). rewrite firstn_skipn. repeat split; auto.
      + intros E. apply (f_equal (@List.length _)) in E. rewrite length_firstn in E.
        pose proof (takeWhile_dropWhile notLineTerminator t) as Ht.
        apply (f_equal (@List.length _)) in Ht. rewrite length_app in Ht.
        simpl in E. lia.
      + pose proof (takeWhile_dropWhile notLineTerminator t) as Ht.
        pose proof (takeWhile_forallb notLineTerminator t) as Hall.
        rewrite <- Ht at 1. rewrite firstn_app.
        replace (k - _) with 0 by lia. rewrite firstn_O, app_nil_r.
        rewrite <- (firstn_skipn k (takeWhile notLineTerminator t)), forallb_app in Hall.
        now apply andb_prop in Hall as [Hall _].
    - intros (stem & ext & -> & Hne & Hall & Hext).
      assert (Hk : 1 <= List.length stem <= List.length (takeWhile notLineTerminator (stem ++ ext))).
      { rewrite takeWhile_app, length_app by exact Hall.
        destruct stem; [congruence|simpl; lia]. }
      destruct (matcher archive_tail (mkState (List.length stem) ext [None])) as [|y l'] eqn:E.
      { destruct Hext as [-> | ->]; [now apply archive_tail_tgz in E
                                    | now apply archive_tail_tar_gz in E]. }
      exists y. apply in_flat_map.
      exists (mkState (List.length stem) ext [None]). split; [|rewrite E; now left].
      apply (@Plus_In Dot notLineTerminator); [reflexivity|].
      exists (List.length stem). split; [exact Hk|].
      now rewrite skipn_app, skipn_all, Nat.sub_diag. }
  rewrite <- Hl. destruct l as [|y l']; cbn [isNull]; split.
  - discriminate.
  - intros (y & []).
  - intros _. exists y. now left.
  - reflexivity.
Qed.

(** ** The fuel of RepeatMatcher is never exhausted *)

Lemma extends_refl x : extends x x.
Proof. split; lia. Qed.

Lemma extends_trans x y z : extends x y -> extends y z -> extends x z.
Proof. unfold extends; intros [? ?] [? ?]; split; lia. Qed.

Lemma extends_clear ids x y : extends (clear_captures ids x) y -> extends x y.
Proof.
  unfold extends. destruct (clear_captures_rest ids x) as [-> ->]. auto.
Qed.

Lemma RepeatMatcher_forward m ids :
  forward m ->
  forall fuel min max, forward (RepeatMatcher fuel m ids min max).
Proof.
  intros Hm. induction fuel as [|fuel IH]; intros min max x y; [intros []|].
  rewrite RepeatMatcher_S.
  assert (Hiter : In y (flat_map
            (fun y0 => if (min =? 0)%nat && (endIndex y0 =? endIndex x)%nat then []
                       else RepeatMatcher fuel m ids (pred min) (option_map pred max) y0)
            (m (clear_captures ids x))) -> extends x y).
  { intros H. apply in_flat_map in H as (z & Hz & Hy).
    destruct (_ && _); [destruct Hy|].
    apply extends_trans with z; [apply extends_clear with ids, Hm, Hz | eapply IH, Hy]. }
  destruct max as [[|n]|].
  - intros [<-|[]]. apply extends_refl.
  - destruct (min =? 0)%nat; [|exact Hiter].
    intros H. apply in_app_or in H as [H|[<-|[]]]; [auto | apply extends_refl].
  - destruct (min =? 0)%nat; [|exact Hiter].
    intros H. apply in_app_or in H as [H|[<-|[]]]; [auto | apply extends_refl].
Qed.

Lemma CharacterSetMatcher_forward p : forward (CharacterSetMatcher p).
Proof.
  intros x y. unfold CharacterSetMatcher, extends.
  destruct (rest x) as [|d s]; [intros []|].
  destruct (p d); [|intros []]. intros [<-|[]]. simpl. lia.
Qed.

Lemma matcher_forward r : forward (matcher r).
Proof.
  induction r as [ | c | | c | | | r1 IH1 r2 IH2 | r1 IH1 r2 IH2 | k r IH | min max r IH];
    intros x y; cbn [matcher]; try apply CharacterSetMatcher_forward.
  - intros [<-|[]]. apply extends_refl.
  - destruct (_ =? _)%nat; [|intros []]. intros [<-|[]]. apply extends_refl.
  - destruct (rest x); [|intros []]. intros [<-|[]]. apply extends_refl.
  - intros H. apply in_flat_map in H as (z & Hz & Hy).
    apply extends_trans with z; [apply IH1, Hz | apply IH2, Hy].
  - intros H. apply in_app_or in H as [H|H]; [apply IH1, H | apply IH2, H].
  - intros H. apply in_map_iff in H as (z & <- & Hz). apply IH in Hz.
    exact Hz.
  - apply RepeatMatcher_forward, IH.
Qed.

Lemma flat_map_ext_In (A B : Type) (f g : A -> list B) l :
  (forall a, In a l -> f a = g a) -> flat_map f l = flat_map g l.
Proof.
  induction l as [|a l IH]; intros H; simpl; [reflexivity|].
  rewrite (H a (or_introl eq_refl)), IH; [reflexivity|].
  intros b Hb. apply H. now right.
Qed.

Lemma RepeatMatcher_fuel m ids :
  forward m ->
  forall fuel1 fuel2 min max x,
    min + List.length (rest x) < fuel1 ->
    min + List.length (rest x) < fuel2 ->
    RepeatMatcher fuel1 m ids min max x = RepeatMatcher fuel2 m ids min max x.
Proof.
  intros Hm. induction fuel1 as [|fuel1 IH]; intros [|fuel2] min max x H1 H2; try lia.
  rewrite !RepeatMatcher_S.
  assert (Hd : flat_map
            (fun y => if (min =? 0)%nat && (endIndex y =? endIndex x)%nat then []
                      else RepeatMatcher fuel1 m ids (pred min) (option_map pred max) y)
            (m (clear_captures ids x))
          = flat_map
            (fun y => if (min =? 0)%nat && (endIndex y =? endIndex x)%nat then []
                      else RepeatMatcher fuel2 m ids (pred min) (option_map pred max) y)
            (m (clear_captures ids x))).
  { apply flat_map_ext_In. intros y Hy.
    apply Hm, extends_clear in Hy. destruct Hy as [Hle Hidx].
    destruct (min =? 0)%nat eqn:Emin; cbn [andb].
    - apply Nat.eqb_eq in Emin; subst min.
      destruct (endIndex y =? endIndex x)%nat eqn:E; [reflexivity|].
      apply Nat.eqb_neq in E. apply IH; simpl; lia.
    - apply Nat.eqb_neq in Emin. apply IH; lia. }
  destruct max as [[|n]|]; [reflexivity | |]; cbv zeta; now rewrite Hd.
Qed.

(** More fuel than the matcher provides yields the same states. *)
Lemma matcher_Quant_fuel min max r x fuel :
  min + List.length (rest x) < fuel ->
  RepeatMatcher fuel (matcher r) (group_ids r) min max x
  = matcher (Quant min max r) x.
Proof.
  intros H. rewrite matcher_Quant.
  apply RepeatMatcher_fuel; [apply matcher_forward | exact H | lia].
Qed.

(** ** The decomposition of a package-style reference *)

Lemma parse_version_inv w version :
  parse_version w = Some version ->
  orEmpty version = w /\
  match version with
  | Some v => exists u, v = ch "@" :: u /\ u <> [] /\ forallb notLineTerminator u = true
  | None => True
  end.
Proof.
  destruct w as [|c v]; cbn [parse_version].
  - intros H; injection H as <-. now split.
  - destruct (N.eqb (ch "@") c) eqn:Ec; [|discriminate].
    destruct v as [|b v]; [discriminate|]. cbn [truthy andb].
    destruct (forallb notLineTerminator (b :: v)) eqn:Ev; [|discriminate].
    intros H; injection H as <-. apply N.eqb_eq in Ec; subst c.
    split; [reflexivity|]. exists (b :: v). repeat split; [discriminate | exact Ev].
Qed.

Lemma parse_version_intro u :
  u <> [] -> forallb notLineTerminator u = true ->
  parse_version (ch "@" :: u) = Some (Some (ch "@" :: u)).
Proof.
  intros Hu Hall. cbn [parse_version]. rewrite N.eqb_refl, Hall.
  destruct u; [congruence | reflexivity].
Qed.

Lemma parse_version_again w version :
  parse_version w = Some version -> parse_version (orEmpty version) = Some version.
Proof.
  intros H. destruct (parse_version_inv _ H) as [E _]. now rewrite E.
Qed.

Lemma parse_name_version_inv w name version :
  parse_name_version w = Some (name, version) ->
  orEmpty name ++ orEmpty version = w
  /\ forallb notAt (orEmpty name) = true
  /\ match name with Some n => n <> [] | None => True end
  /\ parse_version (orEmpty version) = Some version.
Proof.
  unfold parse_name_version.
  pose proof (takeWhile_dropWhile notAt w) as Hw.
  pose proof (takeWhile_forallb notAt w) as Hall.
  destruct (parse_version (dropWhile notAt w)) as [ver|] eqn:Ev; [|discriminate].
  intros H; injection H as <- <-.
  destruct (parse_version_inv _ Ev) as [E _].
  rewrite (parse_version_again _ Ev), E.
  destruct (takeWhile notAt w) as [|a run]; cbn [truthy orEmpty]; repeat split; auto.
  discriminate.
Qed.

Lemma parse_name_version_intro n version :
  forallb notAt n = true ->
  parse_version (orEmpty version) = Some version ->
  parse_name_version (n ++ orEmpty version)
  = Some (if truthy n then Some n else None, version).
Proof.
  intros Hn Hv. unfold parse_name_version.
  assert (Hstop : match orEmpty version with [] => True | c :: _ => notAt c = false end).
  { destruct (parse_version_inv _ Hv) as [_ H]. destruct version as [v|]; [|exact I].
    destruct H as (u & -> & _). reflexivity. }
  destruct (takeWhile_stop notAt _ Hstop) as [Et Ed].
  rewrite takeWhile_app, dropWhile_app, Et, Ed, app_nil_r by exact Hn.
  now rewrite Hv.
Qed.

Lemma parse_scope_inv t scope w :
  parse_scope t = Some (scope, w) ->
  t = scope ++ w /\
  exists run, scope = ch "@" :: run ++ [ch "/"] /\ run <> []
              /\ forallb notSlash run = true.
Proof.
  intros H. split; [now apply parse_scope_app|]. revert H.
  destruct t as [|c u]; cbn [parse_scope]; [discriminate|].
  destruct (N.eqb (ch "@") c) eqn:Ec; [|discriminate].
  pose proof (takeWhile_forallb notSlash u) as Hall.
  destruct (takeWhile notSlash u) as [|a run]; [discriminate|].
  destruct (dropWhile notSlash u) as [|d w']; [discriminate|].
  destruct (N.eqb (ch "/") d) eqn:Ed; [|discriminate].
  intros H; injection H as <- <-.
  apply N.eqb_eq in Ec, Ed; subst c d.
  exists (a :: run). repeat split; [discriminate | exact Hall].
Qed.

Lemma parse_scope_intro run w :
  run <> [] -> forallb notSlash run = true ->
  parse_scope (ch "@" :: run ++ [ch "/"] ++ w) = Some (ch "@" :: run ++ [ch "/"], w).
Proof.
  intros Hne Hall. cbn [parse_scope]. rewrite N.eqb_refl.
  assert (Hstop : match [ch "/"] ++ w with [] => True | c :: _ => notSlash c = false end)
    by reflexivity.
  destruct (takeWhile_stop notSlash ([ch "/"] ++ w) Hstop) as [Et Ed].
  rewrite takeWhile_app, dropWhile_app, Et, Ed, app_nil_r by exact Hall.
  destruct run; [congruence|]. cbn [app]. now rewrite N.eqb_refl.
Qed.

(** The three groups cover the input: what the pattern captures is the
    input cut in three. *)
Lemma parse_package_app t scope name version :
  parse_package t = Some (scope, name, version) ->
  orEmpty scope ++ orEmpty name ++ orEmpty version = t.
Proof.
  unfold parse_package.
  assert (Hskip : match parse_name_version t with
                  | Some (n, v) => Some (None, n, v)
                  | None => None
                  end = Some (scope, name, version) ->
                  orEmpty scope ++ orEmpty name ++ orEmpty version = t).
  { destruct (parse_name_version t) as [[n v]|] eqn:E; [|discriminate].
    intros H; injection H as <- <- <-.
    now destruct (parse_name_version_inv _ E) as [-> _]. }
  destruct (parse_scope t) as [[sc w]|] eqn:Es; [|exact Hskip].
  destruct (parse_name_version w) as [[n v]|] eqn:E; [|exact Hskip].
  intros H; injection H as <- <- <-.
  destruct (parse_name_version_inv _ E) as [-> _].
  symmetry; now apply parse_scope_app.
Qed.

Lemma parse_package_name t scope name version :
  parse_package t = Some (scope, Some name, version) -> name <> [].
Proof.
  unfold parse_package.
  assert (Hnv : forall w sc, match parse_name_version w with
                  | Some (n, v) => Some (sc, n, v)
                  | None => None
                  end = Some (scope, Some name, version) -> name <> []).
  { intros w sc. destruct (parse_name_version w) as [[n v]|] eqn:E; [|discriminate].
    intros H; injection H as ? ? ?; subst.
    now destruct (parse_name_version_inv _ E) as (_ & _ & H & _). }
  destruct (parse_scope t) as [[sc w]|] eqn:Es; [|apply Hnv].
  destruct (parse_name_version w) as [[n v]|] eqn:E; [|apply Hnv].
  intros H. apply (Hnv w (Some sc)). now rewrite E.
Qed.

Lemma parse_package_version t scope name v :
  parse_package t = Some (scope, name, Some v) -> v <> [].
Proof.
  unfold parse_package.
  assert (Hnv : forall w sc, match parse_name_version w with
                  | Some (n, v) => Some (sc, n, v)
                  | None => None
                  end = Some (scope, name, Some v) -> v <> []).
  { intros w sc. destruct (parse_name_version w) as [[n v']|] eqn:E; [|discriminate].
    intros H; injection H as ? ? ?; subst.
    destruct (parse_name_version_inv _ E) as (_ & _ & _ & H).
    destruct (parse_version_inv _ H) as [_ (u & -> & _)]. discriminate. }
  destruct (parse_scope t) as [[sc w]|] eqn:Es; [|apply Hnv].
  destruct (parse_name_version w) as [[n v']|] eqn:E; [|apply Hnv].
  intros H. apply (Hnv w (Some sc)). now rewrite E.
Qed.

Lemma parse_package_inv t scope name version :
  parse_package t = Some (scope, name, version) ->
  match scope with
  | Some sc => exists run, sc = ch "@" :: run ++ [ch "/"] /\ run <> []
                           /\ forallb notSlash run = true
  | None => True
  end
  /\ forallb notAt (orEmpty name) = true
  /\ match name with Some n => n <> [] | None => True end
  /\ parse_version (orEmpty version) = Some version.
Proof.
  unfold parse_package.
  assert (Hnv : forall w, match parse_name_version w with
                  | Some (n, v) => Some (None, n, v)
                  | None => None
                  end = Some (scope, name, version) ->
                match scope with
                | Some sc => exists run, sc = ch "@" :: run ++ [ch "/"] /\ run <> []
                                         /\ forallb notSlash run = true
                | None => True
                end
                /\ forallb notAt (orEmpty name) = true
                /\ match name with Some n => n <> [] | None => True end
                /\ parse_version (orEmpty version) = Some version).
  { intros w. destruct (parse_name_version w) as [[n v]|] eqn:E; [|discriminate].
    intros H; injection H as ? ? ?; subst.
    destruct (parse_name_version_inv _ E) as (_ & H1 & H2 & H3). auto. }
  destruct (parse_scope t) as [[sc w]|] eqn:Es; [|apply Hnv].
  destruct (parse_name_version w) as [[n v]|] eqn:E; [|apply Hnv].
  intros H; injection H as ? ? ?; subst.
  destruct (parse_scope_inv _ Es) as [_ Hsc].
  destruct (parse_name_version_inv _ E) as (_ & H1 & H2 & H3). auto.
Qed.

Lemma includes_slash_notSlash s :
  includes s (lit "/") = false -> forallb notSlash s = true.
Proof.
  induction s as [|c s IH]; [reflexivity|].
  cbn [includes forallb]. change (lit "/") with [ch "/"]. cbn [startsWith].
  rewrite andb_true_r. intros H. apply orb_false_iff in H as [Hc Hs].
  unfold notSlash. rewrite N.eqb_sym, Hc. cbn [negb andb]. now apply IH.
Qed.

(** A well-formed scope, name and version are what the package pattern
    captures from their concatenation. *)
Lemma String_match_package_assembled scope name version :
  match scope with
  | Some sc => exists run, sc = ch "@" :: run ++ [ch "/"] /\ run <> []
                           /\ forallb notSlash run = true
  | None => True
  end ->
  name <> [] -> forallb notAt name = true ->
  parse_version (orEmpty version) = Some version ->
  let t := orEmpty scope ++ name ++ orEmpty version in
  String_match t re_package = Some [Some t; scope; Some name; version].
Proof.
  intros Hsc Hne Hn Hv t. rewrite String_match_re_package.
  pose proof (@parse_name_version_intro name version Hn Hv) as Hnv.
  assert (truthy name = true) as E by (destruct name; [contradiction | reflexivity]).
  rewrite E in Hnv. unfold parse_package, t.
  destruct scope as [sc|]; cbn [orEmpty].
  - destruct Hsc as (run & -> & Hr & Hall).
    change ((ch "@" :: run ++ [ch "/"]) ++ ?w) with (ch "@" :: (run ++ [ch "/"]) ++ w).
    rewrite <- app_assoc, (@parse_scope_intro run _ Hr Hall), Hnv. reflexivity.
  - cbn [app]. rewrite Hnv.
    destruct name as [|c name]; [contradiction|].
    cbn [forallb] in Hn. apply andb_prop in Hn as [Hc _].
    cbn [app parse_scope]. unfold notAt in Hc.
    destruct (N.eqb (ch "@") c); [discriminate Hc | reflexivity].
Qed.

(** * Properties of the resolver *)

Lemma not_archive t :
  endsWith t (lit ".tgz") = false -> endsWith t (lit ".tar.gz") = false ->
  isNull (String_match t re_archive) = true.
Proof.
  intros H1 H2. destruct (isNull (String_match t re_archive)) eqn:E; [reflexivity|].
  apply String_match_re_archive in E as (stem & ext & -> & _ & _ & [-> | ->]).
  - rewrite (proj2 (endsWith_app _ _)) in H1; [discriminate | now exists stem].
  - rewrite (proj2 (endsWith_app _ _)) in H2; [discriminate | now exists stem].
Qed.

Lemma package_style_intro t :
  t <> [] ->
  startsWith t (lit "file:") = false -> includes t (lit "://") = false ->
  endsWith t (lit ".tgz") = false -> endsWith t (lit ".tar.gz") = false ->
  package_style t = true.
Proof.
  intros Ht H1 H2 H3 H4. unfold package_style.
  rewrite H1, H2, (not_archive _ H3 H4). now destruct t.
Qed.


Section ResolverProperties.

Variable path_resolve_strings : jsstring -> jsstring -> jsstring.

Local Abbreviation resolve := (getTemplateInstallPackage path_resolve_strings).

(** *** The three branches *)

Lemma resolve_local_path s d :
  resolve (Some (lit "file:" ++ s)) d
  = match parse_file_suffix s with
    | Some (Some p) => Normal (Promise_resolve (lit "file:" ++ path_resolve_strings d p))
    | _ => Throw TypeError
    end.
Proof.
  unfold getTemplateInstallPackage.
  change (truthy (lit "file:" ++ s)) with true. cbn [negb].
  rewrite String_match_re_file, String_match_re_file_path.
  assert (startsWith (lit "file:" ++ s) (lit "file:") = true) as ->
    by (apply startsWith_app; now exists s).
  cbn [negb]. destruct (parse_file_suffix s) as [[p|]|]; reflexivity.
Qed.

Lemma resolve_remote t d :
  startsWith t (lit "file:") = false ->
  includes t (lit "://") || negb (isNull (String_match t re_archive)) = true ->
  resolve (Some t) d = Normal (Promise_resolve t).
Proof.
  intros Hf Hr. unfold getTemplateInstallPackage.
  destruct t as [|c t]; [discriminate Hr|]. cbn [truthy negb].
  rewrite String_match_re_file, Hf. cbn [negb]. now rewrite Hr.
Qed.

Lemma resolve_package_style t d :
  package_style t = true ->
  resolve (Some t) d
  = match parse_package t with
    | Some (scope, name, version) =>
        Normal (Promise_resolve (canonical_reference scope name version))
    | None => Throw TypeError
    end.
Proof.
  unfold package_style. intros H.
  apply andb_prop in H as [H Ha]. apply andb_prop in H as [H Hu].
  apply andb_prop in H as [Ht Hf].
  apply negb_true_iff in Hf, Hu.
  unfold getTemplateInstallPackage.
  rewrite Ht, String_match_re_file, Hf, Hu, Ha, String_match_re_package.
  cbn [negb orb].
  destruct (parse_package t) as [[[scope name] version]|]; [|reflexivity].
  cbn [bind index nth]. unfold canonical_reference.
  destruct (_ || _); [reflexivity|]. destruct (_ && _); reflexivity.
Qed.

Lemma String_match_package_inv t whole scope name version :
  String_match t re_package = Some [whole; scope; name; version] ->
  parse_package t = Some (scope, name, version).
Proof.
  rewrite String_match_re_package.
  destruct (parse_package t) as [[[sc n] v]|]; [|discriminate].
  intros H; injection H as _ -> -> ->. reflexivity.
Qed.

(** A local path with a suffix that is not empty and holds no line
    terminator is resolved against the base directory, whatever else the
    suffix holds. *)
Lemma local_path_resolved s d :
  s <> [] -> forallb notLineTerminator s = true ->
  resolve (Some (lit "file:" ++ s)) d
  = Normal (Promise_resolve (lit "file:" ++ path_resolve_strings d s)).
Proof.
  intros Hs Hall. rewrite resolve_local_path. unfold parse_file_suffix.
  destruct s; [contradiction|]. now rewrite Hall.
Qed.

(** *** Totality *)

(** In the package-style branch the resolver throws exactly when the
    package pattern does not match. *)
Lemma unmatched_package_throws t d :
  package_style t = true ->
  (resolve (Some t) d = Throw TypeError <-> String_match t re_package = None).
Proof.
  intros H. rewrite (@resolve_package_style t d H), String_match_re_package.
  destruct (parse_package t) as [[[scope name] version]|]; split;
    try reflexivity; discriminate.
Qed.

(** C1.  The resolver is not total: on the bare "@" none of the three
    groups of the package pattern can match, [match] returns [null] and
    reading its index 1 throws a TypeError, for every base directory. *)
Theorem bare_at_sign_throws d :
  resolve (Some (lit "@")) d = Throw TypeError.
Proof. reflexivity. Qed.

(** *** The package-style branch *)

(** C2.  A package-style input (not starting with "file:", not containing
    "://", not ending in ".tgz" or ".tar.gz") that decomposes into an
    optional scope, a name that is neither "tjs-template" nor prefixed by
    "tjs-template-", and an optional version resolves to
    scope + "tjs-template-" + name + version. *)
Theorem prefix_injection t d whole scope name version :
  startsWith t (lit "file:") = false ->
  includes t (lit "://") = false ->
  endsWith t (lit ".tgz") = false ->
  endsWith t (lit ".tar.gz") = false ->
  String_match t re_package = Some [whole; scope; Some name; version] ->
  name <> lit "tjs-template" ->
  startsWith name (lit "tjs-template-") = false ->
  resolve (Some t) d
  = Normal (Promise_resolve
              (orEmpty scope ++ lit "tjs-template-" ++ name ++ orEmpty version)).
Proof.
  intros Hf Hu Ha1 Ha2 Hm Hn Hp.
  assert (Ht : t <> []) by (intros ->; discriminate Hm).
  apply String_match_package_inv in Hm.
  rewrite (@resolve_package_style t d (package_style_intro Ht Hf Hu Ha1 Ha2)), Hm.
  unfold canonical_reference. cbn [orEmpty].
  change (lit "tjs-template" ++ lit "-") with (lit "tjs-template-"). rewrite Hp.
  destruct (str_eqb name (lit "tjs-template")) eqn:E;
    [apply str_eqb_eq in E; contradiction|].
  pose proof (parse_package_name _ Hm) as Hne.
  destruct name as [|c name]; [contradiction|].
  cbn [orb truthy negb andb]. rewrite !andb_false_r. reflexivity.
Qed.

(** C3.  A package-style input whose decomposed name is "tjs-template" or
    starts with "tjs-template-" resolves to scope + name + version, and
    these three parts are the input: the resolver is the identity there. *)
Theorem canonical_family_fixed t d whole scope name version :
  startsWith t (lit "file:") = false ->
  includes t (lit "://") = false ->
  endsWith t (lit ".tgz") = false ->
  endsWith t (lit ".tar.gz") = false ->
  String_match t re_package = Some [whole; scope; Some name; version] ->
  name = lit "tjs-template" \/ startsWith name (lit "tjs-template-") = true ->
  resolve (Some t) d
  = Normal (Promise_resolve (orEmpty scope ++ name ++ orEmpty version))
  /\ orEmpty scope ++ name ++ orEmpty version = t.
Proof.
  intros Hf Hu Ha1 Ha2 Hm Hn.
  assert (Ht : t <> []) by (intros ->; discriminate Hm).
  apply String_match_package_inv in Hm.
  split; [|exact (parse_package_app _ Hm)].
  rewrite (@resolve_package_style t d (package_style_intro Ht Hf Hu Ha1 Ha2)), Hm.
  unfold canonical_reference. cbn [orEmpty].
  change (lit "tjs-template" ++ lit "-") with (lit "tjs-template-").
  destruct Hn as [-> | ->]; [reflexivity|]. now rewrite orb_true_r.
Qed.

(** C4.  An input that decomposes with a version fragment, no scope and no
    name (the scope-only case) resolves to the fragment followed by "/"
    and the default template name. *)
Theorem scope_only t d whole version :
  startsWith t (lit "file:") = false ->
  includes t (lit "://") = false ->
  endsWith t (lit ".tgz") = false ->
  endsWith t (lit ".tar.gz") = false ->
  String_match t re_package = Some [whole; None; None; Some version] ->
  resolve (Some t) d
  = Normal (Promise_resolve (version ++ lit "/" ++ lit "tjs-template")).
Proof.
  intros Hf Hu Ha1 Ha2 Hm.
  assert (Ht : t <> []) by (intros ->; discriminate Hm).
  apply String_match_package_inv in Hm.
  rewrite (@resolve_package_style t d (package_style_intro Ht Hf Hu Ha1 Ha2)), Hm.
  pose proof (parse_package_version _ Hm) as Hv.
  unfold canonical_reference. cbn [orEmpty].
  destruct version as [|c v]; [contradiction|]. reflexivity.
Qed.

(** *** The remote-archive branch *)

(** C5, as the code has it.  An input that does not start with "file:" is
    returned unchanged when it contains "://", or when it is ".tgz" or
    ".tar.gz" preceded by at least one character, the characters before
    the extension holding no line terminator. *)
Theorem remote_reference_verbatim t d :
  startsWith t (lit "file:") = false ->
  includes t (lit "://") = true
  \/ (exists stem, stem <> [] /\ forallb notLineTerminator stem = true
                   /\ (t = stem ++ lit ".tgz" \/ t = stem ++ lit ".tar.gz")) ->
  resolve (Some t) d = Normal (Promise_resolve t).
Proof.
  intros Hf H. apply resolve_remote; [exact Hf|].
  destruct H as [-> | (stem & Hne & Hall & Ht)]; [reflexivity|].
  apply orb_true_iff; right. apply negb_true_iff, String_match_re_archive.
  destruct Ht as [-> | ->].
  - exists stem, (lit ".tgz"). auto.
  - exists stem, (lit ".tar.gz"). auto.
Qed.

(** *** The local-path branch *)

(** C6.  The local-path branch does not resolve every suffix: when the
    suffix after "file:" is empty, group 1 of the suffix pattern is
    [undefined] and [path.resolve] throws; when the suffix holds a line
    terminator, the suffix pattern does not match and indexing [null]
    throws. *)
Theorem local_path_suffix_throws s d :
  s = [] \/ forallb notLineTerminator s = false ->
  resolve (Some (lit "file:" ++ s)) d = Throw TypeError.
Proof.
  intros H. rewrite resolve_local_path. unfold parse_file_suffix.
  destruct H as [-> | H]; [reflexivity|].
  destruct s; [reflexivity|]. now rewrite H.
Qed.

(** C10.  On the input "file:" the resolver throws a TypeError for every
    base directory: it does not return "file:" followed by the resolved
    base directory. *)
Theorem local_path_empty_suffix d :
  resolve (Some (lit "file:")) d = Throw TypeError.
Proof. reflexivity. Qed.

(** *** The default *)

(** C7.  An absent template and the empty string both resolve to
    "tjs-template", whatever the base directory. *)
Theorem default_template d :
  resolve None d = Normal (Promise_resolve (lit "tjs-template"))
  /\ resolve (Some []) d = Normal (Promise_resolve (lit "tjs-template")).
Proof. split; reflexivity. Qed.

(** *** Resolving a result again *)

Lemma fixed_point_criterion r d :
  startsWith r (lit "file:") = false ->
  r <> [] ->
  (exists scope name version,
      parse_package r = Some (scope, name, version)
      /\ canonical_reference scope name version = r) ->
  resolve (Some r) d = Normal (Promise_resolve r).
Proof.
  intros Hf Hr (scope & name & version & Hp & Hc).
  destruct (includes r (lit "://") || negb (isNull (String_match r re_archive))) eqn:E.
  - now apply resolve_remote.
  - apply orb_false_iff in E as [Hu Ha]. apply negb_false_iff in Ha.
    rewrite resolve_package_style, Hp, Hc; [reflexivity|].
    unfold package_style. rewrite Hf, Hu, Ha. now destruct r.
Qed.

Lemma prefixed_name_notAt n :
  forallb notAt n = true -> forallb notAt (lit "tjs-template-" ++ n) = true.
Proof. intros H. rewrite forallb_app, H. reflexivity. Qed.

(** The result of rule 3c is in the canonical family. *)
Lemma injected_fixed scope name version d :
  match scope with
  | Some sc => exists run, sc = ch "@" :: run ++ [ch "/"] /\ run <> []
                           /\ forallb notSlash run = true
  | None => True
  end ->
  forallb notAt name = true ->
  parse_version (orEmpty version) = Some version ->
  let r := orEmpty scope ++ lit "tjs-template" ++ lit "-" ++ name ++ orEmpty version in
  resolve (Some r) d = Normal (Promise_resolve r).
Proof.
  intros Hsc Hn Hv r.
  pose proof (@parse_name_version_intro (lit "tjs-template-" ++ name) version
                (@prefixed_name_notAt name Hn) Hv) as Hnv.
  change (truthy (lit "tjs-template-" ++ name)) with true in Hnv.
  apply fixed_point_criterion.
  - destruct scope as [sc|]; [|reflexivity].
    destruct Hsc as (run & -> & _). reflexivity.
  - destruct scope as [sc|]; [|discriminate].
    destruct Hsc as (run & -> & _). discriminate.
  - exists scope, (Some (lit "tjs-template-" ++ name)), version. split.
    + unfold parse_package. destruct scope as [sc|].
      * destruct Hsc as (run & -> & Hne & Hall). unfold r. cbn [orEmpty].
        change (lit "tjs-template" ++ lit "-" ++ name ++ orEmpty version)
          with ((lit "tjs-template-" ++ name) ++ orEmpty version).
        change ((ch "@" :: run ++ [ch "/"]) ++ ?w) with (ch "@" :: (run ++ [ch "/"]) ++ w).
        rewrite <- app_assoc, (@parse_scope_intro run _ Hne Hall), Hnv. reflexivity.
      * unfold r. cbn [orEmpty app].
        change (lit "tjs-template" ++ lit "-" ++ name ++ orEmpty version)
          with ((lit "tjs-template-" ++ name) ++ orEmpty version).
        rewrite Hnv. reflexivity.
    + unfold canonical_reference, r. cbn [orEmpty].
      change (lit "tjs-template" ++ lit "-") with (lit "tjs-template-").
      assert (startsWith (lit "tjs-template-" ++ name) (lit "tjs-template-") = true) as ->
        by (apply startsWith_app; now exists name).
      rewrite orb_true_r. reflexivity.
Qed.

(** The result of rule 3b on a fragment without a slash is a scoped
    reference to the default template. *)
Lemma scoped_default_fixed v d :
  parse_version v = Some (Some v) ->
  includes v (lit "/") = false ->
  let r := v ++ lit "/" ++ lit "tjs-template" in
  resolve (Some r) d = Normal (Promise_resolve r).
Proof.
  intros Hv Hs r. destruct (parse_version_inv _ Hv) as [_ (u & -> & Hne & _)].
  apply includes_slash_notSlash in Hs. cbn [forallb] in Hs.
  apply andb_prop in Hs as [_ Hs].
  apply fixed_point_criterion; [reflexivity | discriminate |].
  exists (Some (ch "@" :: u ++ [ch "/"])), (Some (lit "tjs-template")), None. split.
  - unfold parse_package, r.
    change ((ch "@" :: u) ++ lit "/" ++ lit "tjs-template")
      with (ch "@" :: u ++ [ch "/"] ++ lit "tjs-template").
    rewrite (@parse_scope_intro u _ Hne Hs). reflexivity.
  - unfold canonical_reference, r. cbn [orEmpty str_eqb orb].
    change (str_eqb (lit "tjs-template") (lit "tjs-template")) with true. cbn [orb].
    rewrite app_nil_r. cbn [app]. now rewrite <- app_assoc.
Qed.

(** C8, as the code has it.  For an input that reaches the package-style
    branch and on which the resolver returns [r], resolving [r] again
    returns [r], provided that the input, when it decomposes into a version
    fragment alone (rule 3b), has no "/" in that fragment. *)
Theorem resolved_reference_fixed t d r :
  startsWith t (lit "file:") = false ->
  includes t (lit "://") = false ->
  isNull (String_match t re_archive) = true ->
  (forall whole version,
      String_match t re_package = Some [whole; None; None; Some version] ->
      includes version (lit "/") = false) ->
  resolve (Some t) d = Normal (Promise_resolve r) ->
  resolve (Some r) d = Normal (Promise_resolve r).
Proof.
  intros Hf Hu Ha Hslash Hres.
  destruct t as [|c t'].
  { injection Hres as <-. reflexivity. }
  assert (Hps : package_style (c :: t') = true).
  { unfold package_style. now rewrite Hf, Hu, Ha. }
  remember (c :: t') as t eqn:Et.
  rewrite (@resolve_package_style t d Hps) in Hres.
  destruct (parse_package t) as [[[scope name] version]|] eqn:Hp; [|discriminate].
  injection Hres as <-.
  destruct (parse_package_inv _ Hp) as (Hsc & Hn & Hne & Hv).
  pose proof (parse_package_app _ Hp) as Happ.
  unfold canonical_reference.
  destruct (str_eqb (orEmpty name) (lit "tjs-template")
            || startsWith (orEmpty name) (lit "tjs-template" ++ lit "-")) eqn:Ea.
  - rewrite Happ, (@resolve_package_style t d Hps), Hp.
    unfold canonical_reference. now rewrite Ea, Happ.
  - destruct (truthy (orEmpty version) && negb (truthy (orEmpty scope))
              && negb (truthy (orEmpty name))) eqn:Eb.
    + apply andb_prop in Eb as [Eb En]. apply andb_prop in Eb as [Ev Es].
      destruct scope as [sc|].
      { destruct Hsc as (run & -> & _). discriminate Es. }
      destruct name as [n|].
      { destruct n; [contradiction | discriminate En]. }
      destruct version as [v|]; [|discriminate Ev].
      cbn [orEmpty] in *. apply scoped_default_fixed; [exact Hv|].
      apply (Hslash (Some t)). now rewrite String_match_re_package, Hp.
    + now apply injected_fixed.
Qed.

End ResolverProperties.

(** *** The base directory *)

(** In the local-path branch the result is "file:" followed by what
    [path.resolve] returns for the base directory and the suffix: two path
    modules that agree on the base directories give the same result. *)
Lemma local_path_by_path_resolve
    (resolve1 resolve2 : jsstring -> jsstring -> jsstring) template d1 d2 :
  (forall p, resolve1 d1 p = resolve2 d2 p) ->
  getTemplateInstallPackage resolve1 template d1
  = getTemplateInstallPackage resolve2 template d2.
Proof.
  intros H. destruct template as [t|]; [|reflexivity].
  unfold getTemplateInstallPackage.
  destruct (negb (truthy t)); [reflexivity|].
  destruct (negb (isNull (String_match t re_file))); [|reflexivity].
  destruct (index (String_match t re_file_path) 1) as [[p|]|e]; cbn [bind path_resolve];
    try reflexivity.
  now rewrite H.
Qed.

(** C9, as the code has it.  The base directory influences the result
    only in the local-path branch: for an input that does not start with
    "file:", and for an absent template, the result is the same for any two
    base directories and any two path modules, so it is a function of the
    template alone.  For "file:" followed by a suffix that is not empty and
    holds no line terminator the result is "file:" followed by what
    [path.resolve] returns for the base directory and the suffix: it
    depends on the two arguments and on the path module, which in Node
    reads the working directory of the process when the base directory is
    relative. *)
Theorem base_directory_only_local
    (resolve1 resolve2 : jsstring -> jsstring -> jsstring) t d1 d2 :
  (startsWith t (lit "file:") = false ->
   getTemplateInstallPackage resolve1 (Some t) d1
   = getTemplateInstallPackage resolve2 (Some t) d2)
  /\ getTemplateInstallPackage resolve1 None d1
     = getTemplateInstallPackage resolve2 None d2
  /\ (forall s, t = lit "file:" ++ s ->
                s <> [] -> forallb notLineTerminator s = true ->
                getTemplateInstallPackage resolve1 (Some t) d1
                = Normal (Promise_resolve (lit "file:" ++ resolve1 d1 s))).
Proof.
  split; [|split; [reflexivity|]].
  - intros Hf. unfold getTemplateInstallPackage.
    rewrite String_match_re_file, Hf. reflexivity.
  - intros s -> Hs Hall. now apply local_path_resolved.
Qed.

(** * Concrete inputs *)

(** The matcher on the examples that the notes of the ECMAScript
    specification give for RepeatMatcher and for Disjunction: a starred
    group around a starred "a" on "b" leaves the group [undefined]; the
    captures of a repeated group are reset at each iteration; the left
    alternative is preferred. *)
Example specification_notes :
  String_match (lit "b") (Star (Group 1 (Star (Char (ch "a")))))
  = Some [Some []; None]
  /\ String_match (lit "zaacbbbcac")
       (Seq (Group 1 (Char (ch "z")))
            (Star (Group 2 (Seq (Opt (Group 3 (Plus (Char (ch "a")))))
                           (Seq (Opt (Group 4 (Plus (Char (ch "b")))))
                                (Group 5 (Char (ch "c"))))))))
     = Some [Some (lit "zaacbbbcac"); Some (lit "z"); Some (lit "ac");
             Some (lit "a"); None; Some (lit "c")]
  /\ String_match (lit "abc")
       (Seq (Group 1 (Alt (Group 2 (Char (ch "a"))) (Group 3 (str (lit "ab")))))
            (Group 4 (Alt (Group 5 (Char (ch "c"))) (Group 6 (str (lit "bc"))))))
     = Some [Some (lit "abc"); Some (lit "a"); Some (lit "a"); None;
             Some (lit "bc"); None; Some (lit "bc")].
Proof. repeat split. Qed.

(** The cases of the test suite of the repository; none of them is a
    local path, so that the base directory plays no role. *)
Example test_suite_cases :
  resolves_to "tjs-template" "tjs-template"
  /\ resolves_to "tjs-template-rollup-library" "tjs-template-rollup-library"
  /\ resolves_to "tjs-template@next" "tjs-template@next"
  /\ resolves_to "tjs-template-rollup-library@next" "tjs-template-rollup-library@next"
  /\ resolves_to "@toolchain-js" "@toolchain-js/tjs-template"
  /\ resolves_to "@toolchain-js/tjs-template" "@toolchain-js/tjs-template"
  /\ resolves_to "@toolchain-js/tjs-template@next" "@toolchain-js/tjs-template@next"
  /\ resolves_to "@toolchain-js/tjs-template-rollup-library@next"
                 "@toolchain-js/tjs-template-rollup-library@next"
  /\ resolves_to "http://example.com/tjs-template.tar.gz"
                 "http://example.com/tjs-template.tar.gz".
Proof. repeat split; vm_compute; reflexivity. Qed.

(** C2 on the two examples of the specification. *)
Lemma prefix_injection_witness :
  getTemplateInstallPackage join_resolve (Some (lit "my-template")) []
  = Normal (Promise_resolve (lit "tjs-template-my-template"))
  /\ getTemplateInstallPackage join_resolve (Some (lit "@scope/my-template@1.0.0")) []
     = Normal (Promise_resolve (lit "@scope/tjs-template-my-template@1.0.0")).
Proof.
  split.
  - apply (@prefix_injection join_resolve (lit "my-template") []
             (Some (lit "my-template")) None (lit "my-template") None);
      try reflexivity.
    discriminate.
  - apply (@prefix_injection join_resolve (lit "@scope/my-template@1.0.0") []
             (Some (lit "@scope/my-template@1.0.0")) (Some (lit "@scope/"))
             (lit "my-template") (Some (lit "@1.0.0")));
      try reflexivity.
    discriminate.
Defined.

(** C3 on a scoped and versioned member of the family. *)
Lemma canonical_family_fixed_witness :
  getTemplateInstallPackage join_resolve
    (Some (lit "@scope/tjs-template-rollup-library@next")) []
  = Normal (Promise_resolve (lit "@scope/tjs-template-rollup-library@next"))
  /\ lit "@scope/tjs-template-rollup-library@next"
     = lit "@scope/tjs-template-rollup-library@next".
Proof.
  apply (@canonical_family_fixed join_resolve
           (lit "@scope/tjs-template-rollup-library@next") []
           (Some (lit "@scope/tjs-template-rollup-library@next"))
           (Some (lit "@scope/")) (lit "tjs-template-rollup-library")
           (Some (lit "@next")));
    try reflexivity.
  right; reflexivity.
Defined.

(** C4 on a bare scope. *)
Lemma scope_only_witness :
  getTemplateInstallPackage join_resolve (Some (lit "@scope")) []
  = Normal (Promise_resolve (lit "@scope/tjs-template")).
Proof.
  apply (@scope_only join_resolve (lit "@scope") [] (Some (lit "@scope")) (lit "@scope"));
    reflexivity.
Defined.

(** C5, as the specification states it, fails: the bare ".tgz" does not
    start with "file:" and ends with ".tgz", yet it is taken for a package
    name and prefixed. *)
Lemma bare_extension_not_verbatim :
  getTemplateInstallPackage join_resolve (Some (lit ".tgz")) []
  = Normal (Promise_resolve (lit "tjs-template-.tgz"))
  /\ ~ (forall (path_resolve_strings : jsstring -> jsstring -> jsstring) t d,
          startsWith t (lit "file:") = false ->
          includes t (lit "://") = true
          \/ endsWith t (lit ".tgz") = true \/ endsWith t (lit ".tar.gz") = true ->
          getTemplateInstallPackage path_resolve_strings (Some t) d
          = Normal (Promise_resolve t)).
Proof.
  split; [reflexivity|]. intros H.
  specialize (H join_resolve (lit ".tgz") [] eq_refl (or_intror (or_introl eq_refl))).
  discriminate H.
Qed.

(** C5 on a URL and on an archive name. *)
Lemma remote_reference_verbatim_witness :
  getTemplateInstallPackage join_resolve (Some (lit "http://example.com/x.tar.gz")) []
  = Normal (Promise_resolve (lit "http://example.com/x.tar.gz"))
  /\ getTemplateInstallPackage join_resolve (Some (lit "template.tgz")) []
     = Normal (Promise_resolve (lit "template.tgz")).
Proof.
  split.
  - apply remote_reference_verbatim; [reflexivity | left; reflexivity].
  - apply remote_reference_verbatim; [reflexivity | right].
    exists (lit "template"). repeat split; [discriminate | left; reflexivity].
Defined.

(** C6 on the empty suffix and on a suffix of two lines. *)
Lemma local_path_suffix_throws_witness :
  getTemplateInstallPackage join_resolve (Some (lit "file:" ++ [])) (lit "/home/user")
  = Throw TypeError
  /\ getTemplateInstallPackage join_resolve
       (Some (lit "file:" ++ lit "a" ++ [10%N] ++ lit "b")) (lit "/home/user")
     = Throw TypeError.
Proof.
  split; apply local_path_suffix_throws; [left | right]; reflexivity.
Defined.

(** C8, as the specification states it, fails: the fragment "@/" is
    resolved by rule 3b to "@//tjs-template", which rule 3b extends
    again. *)
Lemma slash_fragment_not_fixed :
  getTemplateInstallPackage join_resolve (Some (lit "@/")) []
  = Normal (Promise_resolve (lit "@//tjs-template"))
  /\ getTemplateInstallPackage join_resolve (Some (lit "@//tjs-template")) []
     = Normal (Promise_resolve (lit "@//tjs-template/tjs-template"))
  /\ ~ (forall (path_resolve_strings : jsstring -> jsstring -> jsstring) t d r,
          startsWith t (lit "file:") = false ->
          includes t (lit "://") = false ->
          isNull (String_match t re_archive) = true ->
          getTemplateInstallPackage path_resolve_strings (Some t) d
          = Normal (Promise_resolve r) ->
          getTemplateInstallPackage path_resolve_strings (Some r) d
          = Normal (Promise_resolve r)).
Proof.
  split; [reflexivity|]. split; [reflexivity|]. intros H.
  specialize (H join_resolve (lit "@/") [] (lit "@//tjs-template")
                eq_refl eq_refl eq_refl eq_refl).
  discriminate H.
Qed.

(** C8 on the result of a plain name. *)
Lemma resolved_reference_fixed_witness :
  getTemplateInstallPackage join_resolve (Some (lit "tjs-template-my-template")) []
  = Normal (Promise_resolve (lit "tjs-template-my-template")).
Proof.
  apply (@resolved_reference_fixed join_resolve (lit "my-template"));
    try reflexivity.
  intros whole version H. discriminate H.
Defined.

(** C9 on a plain name, on an absent template and on a local path, with
    two base directories and two path modules. *)
Lemma base_directory_only_local_witness :
  getTemplateInstallPackage join_resolve (Some (lit "my-template")) (lit "/a")
  = getTemplateInstallPackage (fun _ p => p) (Some (lit "my-template")) (lit "/b")
  /\ getTemplateInstallPackage join_resolve None (lit "/a")
     = getTemplateInstallPackage (fun _ p => p) None (lit "/b")
  /\ getTemplateInstallPackage (cwd_resolve (lit "/x")) (Some (lit "file:t")) (lit "rel")
     = Normal (Promise_resolve (lit "file:" ++ cwd_resolve (lit "/x") (lit "rel") (lit "t"))).
Proof.
  split; [|split].
  - apply (proj1 (@base_directory_only_local join_resolve (fun _ p => p)
                   (lit "my-template") (lit "/a") (lit "/b"))).
    reflexivity.
  - apply (proj1 (proj2 (@base_directory_only_local join_resolve (fun _ p => p)
                           (lit "my-template") (lit "/a") (lit "/b")))).
  - apply (proj2 (proj2 (@base_directory_only_local
                          (cwd_resolve (lit "/x")) (cwd_resolve (lit "/x"))
                          (lit "file:t") (lit "rel") (lit "rel"))) (lit "t"));
      [reflexivity | discriminate | reflexivity].
Defined.

(** C9 as the claim has it: the result would depend on nothing but the
    two arguments.  On the local path "file:t" and the relative base
    directory "rel" the result follows the working directory that the path
    module reads: "file:/x/rel/t" in "/x" and "file:/y/rel/t" in "/y". *)
Lemma relative_base_reads_cwd :
  getTemplateInstallPackage (cwd_resolve (lit "/x")) (Some (lit "file:t")) (lit "rel")
  = Normal (Promise_resolve (lit "file:/x/rel/t"))
  /\ getTemplateInstallPackage (cwd_resolve (lit "/y")) (Some (lit "file:t")) (lit "rel")
     = Normal (Promise_resolve (lit "file:/y/rel/t"))
  /\ ~ (forall cwd1 cwd2 template programDirectory,
          getTemplateInstallPackage (cwd_resolve cwd1) template programDirectory
          = getTemplateInstallPackage (cwd_resolve cwd2) template programDirectory).
Proof.
  split; [reflexivity | split; [reflexivity|]]. intros H.
  specialize (H (lit "/x") (lit "/y") (Some (lit "file:t")) (lit "rel")).
  discriminate H.
Qed.

(** * Properties of the other functions *)

(** ** split and join *)

Lemma String_split_cons c s :
  String_split c s
  = takeWhile (differs c) s
    :: match dropWhile (differs c) s with
       | [] => []
       | _ :: s' => String_split c s'
       end.
Proof.
  induction s as [|d s IH]; cbn [String_split takeWhile dropWhile]; [reflexivity|].
  unfold differs at 1 3. destruct (N.eqb c d); cbn [negb]; [reflexivity|].
  rewrite IH. reflexivity.
Qed.

Lemma String_split_piece c piece s :
  forallb (differs c) piece = true ->
  String_split c (piece ++ c :: s) = piece :: String_split c s.
Proof.
  intros H. rewrite String_split_cons, takeWhile_app, dropWhile_app by exact H.
  cbn [takeWhile dropWhile]. unfold differs at 1 3. rewrite N.eqb_refl.
  cbn [negb]. now rewrite app_nil_r.
Qed.

Lemma String_split_last c piece :
  forallb (differs c) piece = true ->
  String_split c piece = [piece].
Proof.
  intros H. rewrite String_split_cons.
  destruct (forallb_takeWhile_all _ _ H) as [-> ->]. reflexivity.
Qed.

(** Splitting what [join] has made of pieces without the separator gives
    the pieces back. *)
Lemma String_split_join c pieces :
  pieces <> [] ->
  Forall (fun piece => forallb (differs c) piece = true) pieces ->
  String_split c (Array_join [c] pieces) = pieces.
Proof.
  induction pieces as [|piece pieces IH]; [congruence|]. intros _ H.
  inversion H as [|? ? Hp Hps]; subst.
  destruct pieces as [|piece' pieces].
  - cbn [Array_join]. now apply String_split_last.
  - change (Array_join [c] (piece :: piece' :: pieces))
      with (piece ++ c :: Array_join [c] (piece' :: pieces)).
    rewrite String_split_piece by exact Hp. f_equal. apply IH; [discriminate | exact Hps].
Qed.

Lemma Array_join_split c s : Array_join [c] (String_split c s) = s.
Proof.
  induction s as [|d s IH]; [reflexivity|]. cbn [String_split].
  destruct (String_split c s) as [|p ps] eqn:Es;
    [rewrite String_split_cons in Es; discriminate Es|].
  destruct (N.eqb c d) eqn:E.
  - apply N.eqb_eq in E; subst d.
    change (Array_join [c] ([] :: p :: ps)) with ([] ++ [c] ++ Array_join [c] (p :: ps)).
    now rewrite IH.
  - destruct ps as [|p' ps]; cbn [Array_join app] in *; now rewrite IH.
Qed.

(** ** Patterns that are not anchored at the start *)

Lemma exec_from_isNull r s : forall i,
  isNull (exec_from r i s) = true <->
  forall k, k <= List.length s ->
            matcher r (mkState (i + k) (skipn k s) (repeat None (ngroups r))) = [].
Proof.
  induction s as [|c s IH]; intros i; cbn [exec_from].
  - destruct (matcher r (mkState i [] _)) as [|y l] eqn:E; cbn [isNull]; split.
    + intros _ k Hk. simpl in Hk. replace k with 0 by lia.
      now rewrite Nat.add_0_r.
    + reflexivity.
    + discriminate.
    + intros H. specialize (H 0 (Nat.le_0_l _)). rewrite Nat.add_0_r in H.
      cbn [skipn] in H. congruence.
  - destruct (matcher r (mkState i (c :: s) _)) as [|y l] eqn:E; cbn [isNull].
    + rewrite IH. split.
      * intros H [|k] Hk; [now rewrite Nat.add_0_r|].
        cbn [skipn]. rewrite Nat.add_succ_r. apply H. simpl in Hk. lia.
      * intros H k Hk. specialize (H (S k)). cbn [skipn] in H.
        rewrite Nat.add_succ_r in H. apply H. simpl. lia.
    + split; [discriminate|].
      intros H. specialize (H 0 (Nat.le_0_l _)). rewrite Nat.add_0_r in H.
      cbn [skipn] in H. congruence.
Qed.

(** The match starts at the first index at which the matcher succeeds. *)
Lemma exec_from_first r s k y l : forall i,
  k <= List.length s ->
  (forall j, j < k ->
             matcher r (mkState (i + j) (skipn j s) (repeat None (ngroups r))) = []) ->
  matcher r (mkState (i + k) (skipn k s) (repeat None (ngroups r))) = y :: l ->
  exec_from r i s
  = Some (Some (firstn (endIndex y - (i + k)) (skipn k s)) :: captures y).
Proof.
  revert s. induction k as [|k IH]; intros s i Hk Hfail Hy.
  - rewrite Nat.add_0_r in *. cbn [skipn] in *.
    destruct s; cbn [exec_from]; now rewrite Hy.
  - destruct s as [|c s]; [simpl in Hk; lia|]. cbn [exec_from].
    pose proof (Hfail 0 (Nat.lt_0_succ k)) as H0.
    rewrite Nat.add_0_r in H0. cbn [skipn] in H0. rewrite H0.
    rewrite (IH s (S i)); cbn [skipn] in *.
    + now rewrite Nat.add_succ_r.
    + simpl in Hk. lia.
    + intros j Hj. specialize (Hfail (S j)). cbn [skipn] in Hfail.
      rewrite Nat.add_succ_r in Hfail. apply Hfail. lia.
    + now rewrite Nat.add_succ_r in Hy.
Qed.

(** ** The directory of the project *)

Lemma matcher_literal_end p i s caps :
  matcher (Seq (str p) AssertEnd) (mkState i s caps)
  = if str_eqb s p then [mkState (i + List.length p) [] caps] else [].
Proof.
  rewrite matcher_Seq, matcher_str.
  destruct (startsWith s p) eqn:E.
  - cbn [flat_map]. rewrite matcher_AssertEnd, app_nil_r.
    destruct (skipn (List.length p) s) eqn:Es.
    + rewrite (skipn_nil_startsWith _ _ E Es).
      now rewrite (proj2 (str_eqb_eq p p) eq_refl).
    + destruct (str_eqb s p) eqn:Eq; [|reflexivity].
      apply str_eqb_eq in Eq; subst s. now rewrite skipn_all in Es.
  - destruct (str_eqb s p) eqn:Eq; [|reflexivity].
    apply str_eqb_eq in Eq; subst s.
    rewrite (proj2 (startsWith_app p p)) in E; [discriminate | exists []; now rewrite app_nil_r].
Qed.

(** The test of the pattern "\.iml$" is [endsWith]. *)
Lemma RegExp_test_re_iml file :
  RegExp_test re_iml file = endsWith file (lit ".iml").
Proof.
  unfold RegExp_test, String_match.
  destruct (endsWith file (lit ".iml")) eqn:E.
  - apply negb_true_iff. destruct (isNull _) eqn:En; [|reflexivity].
    apply endsWith_app in E as [stem ->].
    rewrite exec_from_isNull in En.
    specialize (En (List.length stem)). rewrite length_app in En.
    specialize (En (Nat.le_add_r _ _)).
    rewrite skipn_app, skipn_all, Nat.sub_diag in En. cbn [skipn app] in En.
    unfold re_iml in En. rewrite matcher_literal_end in En. discriminate En.
  - apply negb_false_iff, exec_from_isNull. intros k Hk.
    unfold re_iml. rewrite matcher_literal_end.
    destruct (str_eqb (skipn k file) (lit ".iml")) eqn:Eq; [|reflexivity].
    apply str_eqb_eq in Eq.
    rewrite (proj2 (endsWith_app file (lit ".iml"))) in E; [discriminate|].
    exists (firstn k file). now rewrite <- Eq, firstn_skipn.
Qed.

Lemma filter_filter (A : Type) (p q : A -> bool) l :
  filter q (filter p l) = filter (fun a => p a && q a) l.
Proof.
  induction l as [|a l IH]; [reflexivity|]. cbn [filter].
  destruct (p a); cbn [filter andb]; [destruct (q a)|]; now rewrite IH.
Qed.

Lemma conflicts_filter dir :
  conflicts dir = filter (fun file => negb (allowed file)) dir.
Proof.
  unfold conflicts. rewrite !filter_filter. apply filter_ext. intros file.
  unfold allowed. rewrite RegExp_test_re_iml, !negb_orb. apply andb_assoc.
Qed.

Lemma removeSync_filter file p dir :
  removeSync file (filter p dir) = filter p (removeSync file dir).
Proof.
  unfold removeSync. rewrite !filter_filter. apply filter_ext. intros f.
  apply andb_comm.
Qed.

(** Removing the entries that satisfy [p], one after the other. *)
Lemma fold_removeSync (p : jsstring -> bool) (files : list jsstring) : forall dir,
  fold_left (fun fs file => if p file then removeSync file fs else fs) files dir
  = filter (fun f => negb (existsb (fun file => p file && str_eqb f file) files)) dir.
Proof.
  induction files as [|file files IH]; intros dir; cbn [fold_left existsb].
  - symmetry. apply forallb_filter_id. now apply forallb_forall.
  - rewrite IH. destruct (p file) eqn:E; cbn [andb orb].
    + unfold removeSync. rewrite filter_filter. apply filter_ext. intros f.
      now rewrite negb_orb.
    + reflexivity.
Qed.

Lemma str_eqb_refl s : str_eqb s s = true.
Proof. now apply str_eqb_eq. Qed.

Lemma existsb_self (p : jsstring -> bool) files f :
  In f files ->
  existsb (fun file => p file && str_eqb f file) files = p f.
Proof.
  intros Hin. destruct (p f) eqn:E.
  - apply existsb_exists. exists f. now rewrite E, str_eqb_refl.
  - destruct (existsb _ files) eqn:Ex; [|reflexivity].
    apply existsb_exists in Ex as (g & _ & Hg). apply andb_prop in Hg as [Hp Hq].
    apply str_eqb_eq in Hq; subst g. congruence.
Qed.

Lemma remove_all (p : jsstring -> bool) (dir : directory) :
  fold_left (fun fs file => if p file then removeSync file fs else fs) dir dir
  = filter (fun f => negb (p f)) dir.
Proof.
  rewrite fold_removeSync. apply filter_ext_in. intros f Hf.
  now rewrite existsb_self.
Qed.

Lemma allowed_spec file :
  allowed file = true <->
  In file validFiles \/ endsWith file (lit ".iml") = true
  \/ exists pattern, In pattern errorLogFilePatterns /\ startsWith file pattern = true.
Proof.
  unfold allowed, Array_includes, isErrorLog.
  rewrite !orb_true_iff, !existsb_exists. split.
  - intros [[(g & Hg & E) | H] | H]; auto.
    apply str_eqb_eq in E; subst g. auto.
  - intros [H | [H | H]]; auto.
    left; left. exists file. split; [exact H | apply str_eqb_refl].
Qed.

(** The two exits of the validation. *)
Lemma validateProjectDirectory_cases dir :
  validateProjectDirectory dir
  = if forallb allowed dir
    then Validated (filter (fun file => negb (isErrorLog file)) dir)
    else Conflicting (filter (fun file => negb (allowed file)) dir).
Proof.
  unfold validateProjectDirectory. rewrite conflicts_filter, remove_all.
  destruct (forallb allowed dir) eqn:E.
  - assert (filter (fun f => negb (allowed f)) dir = []) as ->; [|reflexivity].
    rewrite forallb_forall in E. clear -E.
    induction dir as [|f dir IH]; [reflexivity|]. cbn [filter].
    rewrite (E f) by now left. cbn [negb]. apply IH. intros g Hg. apply E. now right.
  - destruct (filter (fun f => negb (allowed f)) dir) eqn:Ef; [|reflexivity].
    exfalso. assert (forallb allowed dir = true); [|congruence].
    apply forallb_forall. intros f Hf. destruct (allowed f) eqn:Ea; [reflexivity|].
    assert (Hc : In f (filter (fun f => negb (allowed f)) dir))
      by (apply filter_In; now rewrite Ea).
    rewrite Ef in Hc. destruct Hc.
Qed.

Lemma validated_inv dir dir' :
  validateProjectDirectory dir = Validated dir' ->
  forallb allowed dir = true
  /\ dir' = filter (fun file => negb (isErrorLog file)) dir.
Proof.
  rewrite validateProjectDirectory_cases.
  destruct (forallb allowed dir); [|discriminate].
  intros H; injection H as <-. now split.
Qed.

Lemma filter_idem (A : Type) (p : A -> bool) l : filter p (filter p l) = filter p l.
Proof.
  rewrite filter_filter. apply filter_ext. intros a. now destruct (p a).
Qed.

Lemma forallb_filter (A : Type) (p q : A -> bool) l :
  forallb p l = true -> forallb p (filter q l) = true.
Proof.
  rewrite !forallb_forall. intros H a Ha. apply filter_In in Ha as [Ha _]. now apply H.
Qed.

(** X1.  The function validateProjectDirectory returns, instead of listing conflicts and
    exiting, exactly when every entry of the directory is one of the sixteen
    valid files, ends in ".iml", or starts with one of the three names of
    error logs. *)
Theorem validateProjectDirectory_passes dir :
  (exists dir', validateProjectDirectory dir = Validated dir') <->
  Forall (fun file =>
            In file validFiles \/ endsWith file (lit ".iml") = true
            \/ exists pattern, In pattern errorLogFilePatterns
                               /\ startsWith file pattern = true) dir.
Proof.
  rewrite validateProjectDirectory_cases, Forall_forall. split.
  - intros [dir' H] file Hin. apply allowed_spec.
    destruct (forallb allowed dir) eqn:E; [|discriminate H].
    rewrite forallb_forall in E. now apply E.
  - intros H.
    assert (forallb allowed dir = true) as ->
      by (apply forallb_forall; intros f Hf; now apply allowed_spec, H).
    eexists; reflexivity.
Qed.

(** X2.  When the validation returns, the directory it leaves is the
    directory it found without the error logs, in the same order: nothing
    else is removed. *)
Theorem validateProjectDirectory_removes_logs dir dir' :
  validateProjectDirectory dir = Validated dir' ->
  dir' = filter (fun file => negb (isErrorLog file)) dir.
Proof. intros H. now apply validated_inv in H. Qed.

(** X3.  Validating is idempotent: the directory that a validation leaves
    passes the validation again and is left as it is. *)
Theorem validateProjectDirectory_again dir dir' :
  validateProjectDirectory dir = Validated dir' ->
  validateProjectDirectory dir' = Validated dir'.
Proof.
  intros H. apply validated_inv in H as [Hall ->].
  rewrite validateProjectDirectory_cases, forallb_filter by exact Hall.
  now rewrite filter_idem.
Qed.

(** *** The handler of a rejected installation *)

Lemma removeSync_idem file dir :
  removeSync file (removeSync file dir) = removeSync file dir.
Proof. apply filter_idem. Qed.

Lemma remove_generated file fs :
  fold_left
    (fun fs' fileToMatch =>
       if str_eqb file fileToMatch then removeSync file fs' else fs')
    knownGeneratedFiles fs
  = if generated file then removeSync file fs else fs.
Proof.
  unfold generated, Array_includes, knownGeneratedFiles. cbn [fold_left existsb].
  destruct (str_eqb file (lit "package.json")),
           (str_eqb file (lit "yarn.lock")),
           (str_eqb file (lit "node_modules"));
    cbn [orb]; rewrite ?removeSync_idem; reflexivity.
Qed.

Lemma fold_left_extensional (A B : Type) (f g : A -> B -> A) l :
  (forall a b, f a b = g a b) -> forall a, fold_left f l a = fold_left g l a.
Proof.
  intros H. induction l as [|b l IH]; intros a; [reflexivity|].
  cbn [fold_left]. now rewrite H, IH.
Qed.

(** The two loops of the handler remove the generated files. *)
Lemma fold_generated dir :
  fold_left
    (fun fs file =>
       fold_left
         (fun fs' fileToMatch =>
            if str_eqb file fileToMatch then removeSync file fs' else fs')
         knownGeneratedFiles fs)
    dir dir
  = filter (fun file => negb (generated file)) dir.
Proof.
  rewrite (@fold_left_extensional _ _ _
             (fun fs file => if generated file then removeSync file fs else fs)).
  - apply remove_all.
  - intros fs file. apply remove_generated.
Qed.

Lemma generated_spec file : generated file = true <-> In file knownGeneratedFiles.
Proof.
  unfold generated, Array_includes. rewrite existsb_exists. split.
  - intros (g & Hg & E). apply str_eqb_eq in E; now subst.
  - intros H. exists file. split; [exact H | apply str_eqb_refl].
Qed.

Lemma generated_not_allowed file : generated file = true -> allowed file = false.
Proof.
  intros H. apply generated_spec in H.
  destruct H as [<- | [<- | [<- | []]]]; reflexivity.
Qed.

Lemma filter_nil_forallb (p : jsstring -> bool) (l : list jsstring) :
  forallb p l = match filter (fun f => negb (p f)) l with [] => true | _ :: _ => false end.
Proof.
  induction l as [|f l IH]; [reflexivity|]. cbn [forallb filter].
  destruct (p f); [exact IH | reflexivity].
Qed.

(** X4.  The handler of a rejected installation removes exactly the entries
    named package.json, yarn.lock and node_modules and keeps the other
    entries in their order.  It never removes the directory itself: when
    every entry was a generated file and nothing is left, reading the
    undeclared appName throws a ReferenceError before the directory is
    removed; when an entry is left the handler exits with the status 1. *)
Theorem abort_cleanup_keeps_the_rest dir :
  abort_cleanup dir
  = (filter (fun file => negb (generated file)) dir,
     if forallb generated dir then ThrowsReferenceError else ExitStatus1).
Proof.
  unfold abort_cleanup. rewrite fold_generated, (filter_nil_forallb generated dir).
  now destruct (filter _ dir).
Qed.

Lemma interleaving_filter (p : jsstring -> bool) : forall m l r,
  interleaving l r m = true ->
  forallb p l = true -> forallb (fun f => negb (p f)) r = true ->
  filter p m = l.
Proof.
  induction m as [|x m IH]; intros l r H Hl Hr.
  - destruct l; [reflexivity|]. destruct r; discriminate H.
  - cbn [interleaving] in H. apply orb_true_iff in H as [H | H].
    + destruct l as [|y l]; [discriminate H|].
      apply andb_prop in H as [E H]. apply str_eqb_eq in E; subst y.
      cbn [forallb] in Hl. apply andb_prop in Hl as [Hx Hl].
      cbn [filter]. rewrite Hx. f_equal. exact (IH l r H Hl Hr).
    + destruct r as [|y r]; [discriminate H|].
      apply andb_prop in H as [E H]. apply str_eqb_eq in E; subst y.
      cbn [forallb] in Hr. apply andb_prop in Hr as [Hx Hr].
      cbn [filter]. apply negb_true_iff in Hx. rewrite Hx.
      exact (IH l r H Hl Hr).
Qed.

(** X5.  Aborting undoes the installation: when the listing of the
    directory holds, in any interleaving, the entries that a validation
    left and generated files, the handler leaves exactly the entries that
    the validation left, in their order.  It exits with the status 1 when
    an entry is left, and throws the ReferenceError, the empty directory
    staying in place, when none is. *)
Theorem abort_restores_validated dir dir' files now :
  validateProjectDirectory dir = Validated dir' ->
  forallb generated files = true ->
  interleaving dir' files now = true ->
  abort_cleanup now
  = (dir', match dir' with [] => ThrowsReferenceError | _ :: _ => ExitStatus1 end).
Proof.
  intros Hv Hg Hi. unfold abort_cleanup. rewrite fold_generated.
  assert (filter (fun f => negb (generated f)) now = dir') as ->.
  { apply (@interleaving_filter _ now dir' files Hi).
    - apply forallb_forall. intros f Hf.
      destruct (generated f) eqn:E; [|reflexivity].
      apply generated_not_allowed in E.
      apply validated_inv in Hv as [Hall ->]. apply filter_In in Hf as [Hf _].
      rewrite forallb_forall in Hall. rewrite (Hall f Hf) in E. discriminate E.
    - rewrite forallb_forall in *. intros f Hf. now rewrite (Hg f Hf). }
  now destruct dir'.
Qed.

(** X6.  An entry that is neither a generated file nor allowed by the
    validation (package-lock.json is one) survives the handler, and the next
    validation of what is left fails with this entry among the conflicts. *)
Theorem leftover_blocks_next_run dir file :
  In file dir ->
  generated file = false ->
  allowed file = false ->
  exists remaining files,
    abort_cleanup dir = (remaining, ExitStatus1)
    /\ validateProjectDirectory remaining = Conflicting files
    /\ In file files.
Proof.
  intros Hin Hg Ha. unfold abort_cleanup. rewrite fold_generated.
  assert (Hrem : In file (filter (fun f => negb (generated f)) dir))
    by (apply filter_In; now rewrite Hg).
  destruct (filter _ dir) as [|f0 rem] eqn:E; [destruct Hrem|].
  exists (f0 :: rem), (filter (fun f => negb (allowed f)) (f0 :: rem)).
  split; [reflexivity|]. rewrite validateProjectDirectory_cases.
  assert (forallb allowed (f0 :: rem) = false) as ->.
  { destruct (forallb allowed (f0 :: rem)) eqn:Ef; [|reflexivity].
    rewrite forallb_forall in Ef. rewrite (Ef file Hrem) in Ha. discriminate Ha. }
  split; [reflexivity|]. apply filter_In. now rewrite Ha.
Qed.

(** X7.  In a directory of allowed and generated files, the error logs
    survive the handler; the next validation of what is left passes and
    removes them. *)
Theorem logs_removed_by_next_run dir remaining :
  forallb (fun file => allowed file || generated file) dir = true ->
  abort_cleanup dir = (remaining, ExitStatus1) ->
  (forall file, In file dir -> isErrorLog file = true -> In file remaining)
  /\ validateProjectDirectory remaining
     = Validated (filter (fun file => negb (isErrorLog file)) remaining).
Proof.
  intros Hdir. unfold abort_cleanup. rewrite fold_generated.
  destruct (filter _ dir) as [|f0 rem] eqn:E; [discriminate|].
  intros H; injection H as <-. rewrite <- E. split.
  - intros file Hin Hlog. apply filter_In. split; [exact Hin|].
    destruct (generated file) eqn:Eg; [|reflexivity].
    apply generated_not_allowed in Eg. unfold allowed in Eg.
    rewrite Hlog, orb_true_r in Eg. discriminate Eg.
  - rewrite validateProjectDirectory_cases.
    assert (forallb allowed (filter (fun f => negb (generated f)) dir) = true) as ->;
      [|reflexivity].
    apply forallb_forall. intros f Hf. apply filter_In in Hf as [Hf Hg].
    rewrite forallb_forall in Hdir. specialize (Hdir f Hf).
    destruct (generated f); [discriminate Hg|]. now rewrite orb_false_r in Hdir.
Qed.

(** ** install *)

Lemma Array_join_In sep args dep :
  In dep args -> exists x y, Array_join sep args = x ++ dep ++ y.
Proof.
  induction args as [|a args IH]; [intros []|]. intros [-> | H].
  - destruct args as [|b args].
    + exists [], []. cbn [Array_join app]. now rewrite app_nil_r.
    + exists [], (sep ++ Array_join sep (b :: args)). reflexivity.
  - destruct (IH H) as (x & y & E). destruct args as [|b args]; [destruct H|].
    exists (a ++ sep ++ x), y.
    change (Array_join sep (a :: b :: args)) with (a ++ sep ++ Array_join sep (b :: args)).
    now rewrite E, <- !app_assoc.
Qed.


(** ** The patterns of getPackageInfo *)

Lemma In_matcher_re_versioned i s caps y :
  In y (matcher re_versioned (mkState i s caps)) <->
  exists k, 1 <= k <= List.length (takeWhile notLineTerminator s)
            /\ exists b, skipn k s = ch "@" :: b
                         /\ y = mkState (S (i + k)) b caps.
Proof.
  unfold re_versioned. rewrite matcher_Seq, in_flat_map. split.
  - intros (z & Hz & Hy).
    apply (@Plus_In Dot notLineTerminator) in Hz as (k & Hk & ->); [|reflexivity].
    exists k. split; [exact Hk|].
    rewrite matcher_Char, CharacterSetMatcher_eq in Hy.
    destruct (skipn k s) as [|c b]; [destruct Hy|].
    destruct (N.eqb (ch "@") c) eqn:E; [|destruct Hy].
    apply N.eqb_eq in E; subst c. destruct Hy as [<-|[]]. now exists b.
  - intros (k & Hk & b & Hb & ->).
    exists (mkState (i + k) (skipn k s) caps). split.
    + apply (@Plus_In Dot notLineTerminator); [reflexivity|]. now exists k.
    + rewrite matcher_Char, CharacterSetMatcher_eq, Hb, N.eqb_refl. now left.
Qed.

Lemma skipn_skipn_add (A : Type) (l : list A) j k : skipn j (skipn k l) = skipn (k + j) l.
Proof.
  revert l; induction k as [|k IH]; intros l; [reflexivity|].
  destruct l; [now rewrite !skipn_nil|]. cbn [skipn Nat.add]. apply IH.
Qed.

Lemma forallb_skipn_head (p : code_unit -> bool) l k c l' :
  forallb p l = true -> skipn k l = c :: l' -> p c = true.
Proof.
  intros H E. rewrite <- (firstn_skipn k l), forallb_app, E in H.
  apply andb_prop in H as [_ H]. cbn [forallb] in H. now apply andb_prop in H as [H _].
Qed.

(** The pattern ".+@" finds nothing in a string whose only "@" is the
    first character. *)
Lemma re_versioned_none t :
  forallb notAt (skipn 1 t) = true ->
  isNull (String_match t re_versioned) = true.
Proof.
  intros H. apply exec_from_isNull. intros k Hk.
  destruct (matcher re_versioned _) as [|y l] eqn:E; [reflexivity|].
  assert (Hy : In y (matcher re_versioned
                       (mkState (0 + k) (skipn k t) (repeat None (ngroups re_versioned)))))
    by (rewrite E; now left).
  apply In_matcher_re_versioned in Hy as (j & Hj & b & Hb & _).
  rewrite skipn_skipn_add in Hb.
  replace (k + j) with (1 + (k + j - 1)) in Hb by lia.
  rewrite <- skipn_skipn_add in Hb.
  apply (forallb_skipn_head _ _ _ H) in Hb. discriminate Hb.
Qed.

(** It finds an "@" that follows a character other than a line
    terminator. *)
Lemma re_versioned_some a c b :
  notLineTerminator c = true ->
  isNull (String_match (a ++ c :: ch "@" :: b) re_versioned) = false.
Proof.
  intros Hc. destruct (isNull _) eqn:E; [|reflexivity].
  unfold String_match in E. rewrite exec_from_isNull in E.
  specialize (E (List.length a)). rewrite length_app in E.
  specialize (E (Nat.le_add_r _ _)).
  rewrite skipn_app, skipn_all, Nat.sub_diag in E. cbn [skipn app] in E.
  assert (Hy : In (mkState (S (0 + List.length a + 1)) b
                           (repeat None (ngroups re_versioned)))
                  (matcher re_versioned
                     (mkState (0 + List.length a) (c :: ch "@" :: b)
                              (repeat None (ngroups re_versioned))))).
  { apply In_matcher_re_versioned. exists 1. split.
    - cbn [takeWhile]. rewrite Hc. simpl. lia.
    - exists b. split; reflexivity. }
  rewrite E in Hy. destruct Hy.
Qed.

(** A match of the git pattern needs ".git" in the input. *)
Lemma re_git_none t :
  includes t (lit ".git") = false -> String_match t re_git = None.
Proof.
  intros H. destruct (String_match t re_git) as [a|] eqn:E; [|reflexivity].
  assert (En : isNull (String_match t re_git) = false) by now rewrite E.
  unfold String_match in En.
  destruct (isNull (exec_from re_git 0 t)) eqn:En'; [discriminate En|].
  assert (Hex : ~ forall k, k <= List.length t ->
                  matcher re_git (mkState (0 + k) (skipn k t)
                                          (repeat None (ngroups re_git))) = []).
  { intros Hall. apply exec_from_isNull in Hall. congruence. }
  exfalso. apply Hex. intros k Hk.
  destruct (matcher re_git _) as [|y l] eqn:Em; [reflexivity|]. exfalso.
  assert (Hy : In y (matcher re_git (mkState (0 + k) (skipn k t)
                                             (repeat None (ngroups re_git)))))
    by (rewrite Em; now left).
  unfold re_git in Hy. rewrite matcher_Seq, in_flat_map in Hy.
  destruct Hy as (z & Hz & Hy).
  rewrite matcher_Group, in_map_iff in Hz. destruct Hz as (z0 & <- & Hz0).
  apply (@Plus_In (NotChar (ch "/")) notSlash) in Hz0 as (j & Hj & ->); [|reflexivity].
  rewrite set_capture_eq, matcher_Seq, matcher_str in Hy. cbn [flat_map] in Hy.
  destruct (startsWith (skipn j (skipn k t)) (lit ".git")) eqn:Es; [|destruct Hy].
  apply startsWith_app in Es as [s' Es].
  rewrite (proj2 (includes_app t (lit ".git"))) in H; [discriminate|].
  exists (firstn (k + j) t), s'.
  rewrite <- Es, skipn_skipn_add. symmetry. apply firstn_skipn.
Qed.

Lemma flat_map_nil_all (A B : Type) (f : A -> list B) l :
  (forall a, In a l -> f a = []) -> flat_map f l = [].
Proof.
  induction l as [|a l IH]; intros H; [reflexivity|]. cbn [flat_map].
  rewrite (H a (or_introl eq_refl)), IH; [reflexivity|].
  intros b Hb. apply H. now right.
Qed.

(** A continuation that succeeds after one run only sees that run. *)
Lemma flat_map_class_star_unique p (K : Matcher) s : forall i caps j0,
  j0 <= List.length (takeWhile p s) ->
  (forall j, j <= List.length (takeWhile p s) -> j <> j0 ->
             K (mkState (i + j) (skipn j s) caps) = []) ->
  flat_map K (class_star p i s caps) = K (mkState (i + j0) (skipn j0 s) caps).
Proof.
  intros i caps j0 Hj0 HK.
  assert (Hall : forall y, In y (class_star p i s caps) ->
                   y <> mkState (i + j0) (skipn j0 s) caps -> K y = []).
  { intros y Hy Hne. apply class_star_In in Hy as (j & Hj & ->).
    apply HK; [exact Hj|]. intros E. subst j. apply Hne. reflexivity. }
  clear HK. revert i caps j0 Hj0 Hall.
  induction s as [|c s IH]; intros i caps j0 Hj0 Hall.
  - simpl in Hj0. replace j0 with 0 by lia.
    cbn [class_star flat_map skipn]. now rewrite app_nil_r, Nat.add_0_r.
  - cbn [class_star takeWhile] in *. destruct (p c) eqn:Ep.
    + rewrite flat_map_app. cbn [flat_map]. rewrite app_nil_r.
      destruct j0 as [|j0].
      * rewrite flat_map_nil_all.
        -- cbn [app skipn]. now rewrite Nat.add_0_r.
        -- intros y Hy. apply Hall; [apply in_or_app; now left|].
           apply class_star_In in Hy as (j & _ & ->).
           intros E. injection E as E _. lia.
      * rewrite (IH (S i) caps j0).
        -- rewrite (Hall (mkState i (c :: s) caps)).
           ++ rewrite app_nil_r. cbn [skipn]. now rewrite Nat.add_succ_r.
           ++ apply in_or_app; right; now left.
           ++ intros E. injection E as E _. lia.
        -- cbn [List.length] in Hj0. lia.
        -- intros y Hy Hne. apply Hall; [apply in_or_app; now left|].
           cbn [skipn]. now rewrite Nat.add_succ_r.
    + simpl in Hj0. replace j0 with 0 by lia.
      cbn [flat_map skipn]. now rewrite app_nil_r, Nat.add_0_r.
Qed.

Lemma Plus_then_unique r p (K : Matcher) i s caps j0 :
  class_pred r = Some p ->
  1 <= j0 <= List.length (takeWhile p s) ->
  (forall j, 1 <= j <= List.length (takeWhile p s) -> j <> j0 ->
             K (mkState (i + j) (skipn j s) caps) = []) ->
  flat_map K (matcher (Plus r) (mkState i s caps))
  = K (mkState (i + j0) (skipn j0 s) caps).
Proof.
  intros H Hj0 HK. rewrite (matcher_Plus _ _ _ _ H).
  destruct s as [|c s]; [simpl in Hj0; lia|]. cbn [takeWhile] in *.
  destruct (p c); [|simpl in Hj0; lia].
  destruct j0 as [|j0]; [lia|]. cbn [List.length] in *.
  rewrite (@flat_map_class_star_unique p K s (S i) caps j0).
  - cbn [skipn]. now rewrite Nat.add_succ_r.
  - lia.
  - intros j Hj Hne. specialize (HK (S j)). cbn [skipn] in HK.
    rewrite Nat.add_succ_r in HK. apply HK; lia.
Qed.

(** The end of the git pattern on what follows ".git". *)
Lemma matcher_git_ref i ref c1 :
  ref = [] \/ (exists r, ref = ch "#" :: r /\ forallb notLineTerminator r = true) ->
  exists c2,
    matcher (Opt (Group 2 (Char (ch "#") >> Star Dot)) >> AssertEnd)%re
            (mkState i ref [c1; None])
    = [mkState (i + List.length ref) [] [c1; c2]].
Proof.
  intros [-> | (r & -> & Hr)].
  - exists None. cbn. now rewrite Nat.add_0_r.
  - exists (Some (ch "#" :: r)).
    rewrite matcher_Seq, matcher_Opt, flat_map_app.
    change (clear_captures _ _) with (mkState i (ch "#" :: r) [c1; None]).
    rewrite matcher_Group, matcher_Seq, matcher_Char, CharacterSetMatcher_eq, N.eqb_refl.
    cbn [flat_map endIndex rest]. rewrite matcher_AssertEnd, !app_nil_r.
    rewrite flat_map_flat_map, flat_map_map.
    rewrite (@Star_then Dot notLineTerminator); [|reflexivity|].
    + destruct (forallb_takeWhile_all _ _ Hr) as [-> ->].
      rewrite set_capture_eq. cbn [endIndex update pred].
      replace (S i + List.length r =? i)%nat with false
        by (symmetry; apply Nat.eqb_neq; lia).
      cbn [flat_map]. rewrite matcher_AssertEnd, !app_nil_r.
      replace (S i + List.length r - i) with (List.length (ch "#" :: r))
        by (cbn [List.length]; lia).
      rewrite firstn_all. cbn [List.length]. do 2 f_equal. lia.
    + intros j c s caps _. destruct (_ =? _)%nat; reflexivity.
Qed.

Lemma takeWhile_firstn p s j :
  j <= List.length (takeWhile p s) -> forallb p (firstn j s) = true.
Proof.
  revert j; induction s as [|c s IH]; intros j Hj; [now rewrite firstn_nil|].
  destruct j as [|j]; [reflexivity|]. cbn [takeWhile] in Hj.
  destruct (p c) eqn:E; [|simpl in Hj; lia].
  cbn [firstn forallb]. rewrite E. apply IH. simpl in Hj. lia.
Qed.

(** The name that the git pattern captures: the last segment before the
    only ".git" of the input. *)
Lemma String_match_re_git pre n ref :
  pre = [] \/ (exists pre0, pre = pre0 ++ [ch "/"]) ->
  n <> [] -> forallb notSlash n = true ->
  (forall m, startsWith (skipn m (pre ++ n ++ lit ".git" ++ ref)) (lit ".git") = true ->
             m = List.length (pre ++ n)) ->
  ref = [] \/ (exists r, ref = ch "#" :: r /\ forallb notLineTerminator r = true) ->
  index (String_match (pre ++ n ++ lit ".git" ++ ref) re_git) 1 = Normal (Some n).
Proof.
  intros Hpre Hn Hns Huniq Href. set (t := pre ++ n ++ lit ".git" ++ ref) in *.
  assert (Hskip : skipn (List.length pre) t = n ++ lit ".git" ++ ref).
  { unfold t. now rewrite skipn_app, skipn_all, Nat.sub_diag. }
  destruct (matcher_git_ref (0 + List.length pre + List.length n + 4) (Some n) Href)
    as [c2 Hc2].
  assert (Hm : matcher re_git (mkState (0 + List.length pre) (skipn (List.length pre) t)
                                       (repeat None (ngroups re_git)))
               = [mkState (0 + List.length pre + List.length n + 4 + List.length ref) []
                          [Some n; c2]]).
  { rewrite Hskip. change (repeat None _) with ([None; None] : list (option jsstring)).
    unfold re_git. rewrite matcher_Seq, matcher_Group, flat_map_map.
    rewrite (@Plus_then_unique (NotChar (ch "/")) notSlash _ _ _ _ (List.length n));
      [|reflexivity| |].
    - rewrite set_capture_eq, skipn_app, skipn_all, Nat.sub_diag. cbn [skipn app].
      cbn [endIndex rest update pred].
      replace (0 + List.length pre + List.length n - (0 + List.length pre))
        with (List.length n) by lia.
      rewrite firstn_app, firstn_all, Nat.sub_diag, firstn_O, app_nil_r.
      rewrite matcher_Seq, matcher_str.
      assert (startsWith (lit ".git" ++ ref) (lit ".git") = true) as ->
        by (apply startsWith_app; now exists ref).
      cbn [flat_map]. rewrite app_nil_r.
      change (skipn (List.length (lit ".git")) (lit ".git" ++ ref)) with ref.
      change (List.length (lit ".git")) with 4. exact Hc2.
    - rewrite takeWhile_app, length_app by exact Hns.
      destruct n; [congruence | simpl; lia].
    - intros j Hj Hne. rewrite set_capture_eq, matcher_Seq, matcher_str.
      destruct (startsWith (skipn j (n ++ lit ".git" ++ ref)) (lit ".git")) eqn:E;
        [|reflexivity].
      rewrite <- Hskip, skipn_skipn_add in E. apply Huniq in E.
      rewrite length_app in E. lia. }
  assert (Hlen : List.length pre <= List.length t)
    by (unfold t; rewrite length_app; lia).
  assert (Hfail : forall j, j < List.length pre ->
            matcher re_git (mkState (0 + j) (skipn j t)
                                    (repeat None (ngroups re_git))) = []).
  { intros j Hj.
    destruct (matcher re_git (mkState (0 + j) _ _)) as [|y l] eqn:Em;
      [reflexivity|]. exfalso.
    assert (Hy : In y (matcher re_git (mkState (0 + j) (skipn j t)
                                               (repeat None (ngroups re_git)))))
      by (rewrite Em; now left).
    destruct Hpre as [-> | (pre0 & ->)]; [simpl in Hj; lia|].
    rewrite length_app in Hj. cbn [List.length] in Hj.
    unfold re_git in Hy. rewrite matcher_Seq, in_flat_map in Hy.
    destruct Hy as (z & Hz & Hy).
    rewrite matcher_Group, in_map_iff in Hz. destruct Hz as (z0 & <- & Hz0).
    apply (@Plus_In (NotChar (ch "/")) notSlash) in Hz0 as (q & Hq & ->); [|reflexivity].
    rewrite set_capture_eq, matcher_Seq, matcher_str in Hy. cbn [flat_map] in Hy.
    destruct (startsWith (skipn q (skipn j t)) (lit ".git")) eqn:Es; [|destruct Hy].
    rewrite skipn_skipn_add in Es. apply Huniq in Es.
    rewrite !length_app in Es. cbn [List.length] in Es.
    destruct Hq as [_ Hq]. apply takeWhile_firstn in Hq.
    unfold t in Hq. rewrite <- !app_assoc in Hq. cbn [app] in Hq.
    rewrite skipn_app in Hq.
    replace (j - List.length pre0) with 0 in Hq by lia. cbn [skipn] in Hq.
    rewrite firstn_app, forallb_app in Hq. apply andb_prop in Hq as [_ Hq].
    rewrite length_skipn in Hq.
    replace (q - (List.length pre0 - j)) with (S (q - (List.length pre0 - j) - 1)) in Hq
      by lia.
    cbn [firstn forallb] in Hq. discriminate Hq. }
  unfold String_match.
  rewrite (@exec_from_first re_git t (List.length pre) _ [] 0 Hlen Hfail Hm).
  reflexivity.
Qed.

(** A check of the uniqueness of an occurrence that a computation
    decides. *)
Lemma unique_occurrence t p m0 :
  p <> [] ->
  forallb (fun m => negb (startsWith (skipn m t) p) || (m =? m0)%nat)
          (seq 0 (List.length t)) = true ->
  forall m, startsWith (skipn m t) p = true -> m = m0.
Proof.
  intros Hp Hall m Hm.
  destruct (Nat.lt_ge_cases m (List.length t)) as [Hlt | Hge].
  - rewrite forallb_forall in Hall. specialize (Hall m).
    rewrite in_seq, Hm in Hall. cbn [negb orb] in Hall.
    apply Nat.eqb_eq, Hall. lia.
  - rewrite skipn_all2 in Hm by exact Hge. destruct p; [congruence | discriminate Hm].
Qed.

(** ** getPackageInfo *)

Lemma last_char (s : jsstring) :
  s <> [] -> exists s0 c, s = s0 ++ [c].
Proof.
  intros H. exists (removelast s), (last s 0%N). now apply app_removelast_last.
Qed.

Lemma String_split_first s v :
  forallb notAt s = true ->
  String_split (ch "@") (s ++ ch "@" :: v) = s :: String_split (ch "@") v.
Proof. apply String_split_piece. Qed.

Lemma versioned_fields name v :
  name <> [] ->
  forallb notAt name = true ->
  NameVersion (Some (charAt0 (name ++ ch "@" :: v)
              ++ nth 0 (String_split (ch "@") (substr1 (name ++ ch "@" :: v))) []))
       (nth_error (String_split (ch "@") (name ++ ch "@" :: v)) 1)
  = NameVersion (Some name) (Some (takeWhile notAt v)).
Proof.
  intros Hne Hat. rewrite String_split_first by exact Hat.
  destruct name as [|a name]; [congruence|].
  cbn [forallb] in Hat. apply andb_prop in Hat as [_ Hat].
  cbn [app charAt0 substr1 firstn skipn]. rewrite String_split_first by exact Hat.
  cbn [nth nth_error app]. rewrite (String_split_cons (ch "@") v). reflexivity.
Qed.

Section PackageInfoProperties.

Variable path_join_strings : jsstring -> jsstring -> jsstring.

Local Abbreviation info := (getPackageInfo path_join_strings).

(** The branch of the versioned references. *)
Lemma getPackageInfo_versioned name v :
  name <> [] ->
  forallb notLineTerminator name = true ->
  isNull (String_match (name ++ ch "@" :: v) re_archive) = true ->
  startsWith (name ++ ch "@" :: v) (lit "git+") = false ->
  info (name ++ ch "@" :: v)
  = Normal (NameVersion
              (Some (charAt0 (name ++ ch "@" :: v)
                     ++ nth 0 (String_split (ch "@") (substr1 (name ++ ch "@" :: v))) []))
              (nth_error (String_split (ch "@") (name ++ ch "@" :: v)) 1)).
Proof.
  intros Hne Hlt Ha Hg. unfold getPackageInfo. rewrite Ha, Hg. cbn [negb].
  destruct (last_char Hne) as (s0 & c & ->).
  rewrite forallb_app in Hlt. apply andb_prop in Hlt as [_ Hc].
  cbn [forallb] in Hc. rewrite andb_true_r in Hc.
  rewrite <- app_assoc. cbn [app]. now rewrite (re_versioned_some s0 _ v Hc).
Qed.

(** X9.  For a name followed by "@" and a version, where the name is not
    empty and holds neither "@" nor a line terminator and the reference is
    neither an archive nor a git+ URL, the package name is the name and the
    version is the text from the first "@" to the next one (to the end when
    there is no other). *)
Theorem getPackageInfo_name_version name v :
  name <> [] ->
  forallb notAt name = true ->
  forallb notLineTerminator name = true ->
  isNull (String_match (name ++ ch "@" :: v) re_archive) = true ->
  startsWith (name ++ ch "@" :: v) (lit "git+") = false ->
  info (name ++ ch "@" :: v)
  = Normal (NameVersion (Some name) (Some (takeWhile notAt v))).
Proof.
  intros Hne Hat Hlt Ha Hg. rewrite getPackageInfo_versioned by assumption.
  now rewrite (versioned_fields v Hne Hat).
Qed.

(** X10.  For a scoped reference, "@" a "@" v with a not empty and without
    "@" and line terminators, the name is "@" followed by a, but the version
    field is a and not v: the piece of index 1 of the split at "@" is the
    one after the leading "@". *)
Theorem getPackageInfo_scoped_version a v :
  a <> [] ->
  forallb notAt a = true ->
  forallb notLineTerminator a = true ->
  isNull (String_match (ch "@" :: a ++ ch "@" :: v) re_archive) = true ->
  info (ch "@" :: a ++ ch "@" :: v)
  = Normal (NameVersion (Some (ch "@" :: a)) (Some a)).
Proof.
  intros Hne Hat Hlt Ha.
  change (ch "@" :: a ++ ch "@" :: v) with ((ch "@" :: a) ++ ch "@" :: v) in *.
  rewrite getPackageInfo_versioned.
  - cbn [app charAt0 substr1 firstn skipn String_split].
    rewrite N.eqb_refl, String_split_first by exact Hat. reflexivity.
  - discriminate.
  - cbn [forallb]. now rewrite Hlt.
  - exact Ha.
  - reflexivity.
Qed.

(** X11.  A reference with no "@" after its first character that is neither
    an archive, a git+ URL nor a local path is itself the package name, and
    the version is undefined. *)
Theorem getPackageInfo_plain t :
  forallb notAt (skipn 1 t) = true ->
  isNull (String_match t re_archive) = true ->
  startsWith t (lit "git+") = false ->
  startsWith t (lit "file:") = false ->
  info t = Normal (NameVersion (Some t) None).
Proof.
  intros Hat Ha Hg Hf. unfold getPackageInfo.
  now rewrite Ha, Hg, (re_versioned_none _ Hat), String_match_re_file, Hf.
Qed.

(** X12.  On a git+ URL that nowhere holds ".git" (and is no archive) the
    git pattern does not match, and reading index 1 of null throws a
    TypeError. *)
Theorem getPackageInfo_git_throws t :
  startsWith t (lit "git+") = true ->
  isNull (String_match t re_archive) = true ->
  includes t (lit ".git") = false ->
  info t = Throw TypeError.
Proof.
  intros Hg Ha Hi. unfold getPackageInfo.
  now rewrite Ha, Hg, (re_git_none _ Hi).
Qed.

(** X13.  On a git+ URL of the form pre n ".git" ref that is no archive,
    where pre is empty or ends with "/", n is not empty and holds no "/",
    this occurrence of ".git" is the only one, and ref is empty or a "#"
    followed by characters that are not line terminators, the package name
    is n. *)
Theorem getPackageInfo_git_name pre n ref :
  let t := pre ++ n ++ lit ".git" ++ ref in
  startsWith t (lit "git+") = true ->
  isNull (String_match t re_archive) = true ->
  pre = [] \/ (exists pre0, pre = pre0 ++ [ch "/"]) ->
  n <> [] -> forallb notSlash n = true ->
  (forall m, startsWith (skipn m t) (lit ".git") = true -> m = List.length (pre ++ n)) ->
  ref = [] \/ (exists r, ref = ch "#" :: r /\ forallb notLineTerminator r = true) ->
  info t = Normal (NameVersion (Some n) None).
Proof.
  intros t Hg Ha Hpre Hn Hns Hu Href. unfold getPackageInfo.
  rewrite Ha, Hg. cbn [negb]. unfold t.
  now rewrite (@String_match_re_git pre n ref Hpre Hn Hns Hu Href).
Qed.

(** X14.  For "file:" followed by a path that is not empty and holds
    neither "@" nor a line terminator (the reference being no archive), the
    package information is read from package.json joined to that path. *)
Theorem getPackageInfo_local_path p :
  p <> [] ->
  forallb notLineTerminator p = true ->
  forallb notAt p = true ->
  isNull (String_match (lit "file:" ++ p) re_archive) = true ->
  info (lit "file:" ++ p)
  = Normal (Manifest (path_join_strings p (lit "package.json"))).
Proof.
  intros Hne Hlt Hat Ha. unfold getPackageInfo. rewrite Ha.
  change (startsWith (lit "file:" ++ p) (lit "git+")) with false. cbn [negb].
  rewrite re_versioned_none by (cbn [app skipn forallb]; exact Hat).
  rewrite String_match_re_file, String_match_re_file_path.
  assert (startsWith (lit "file:" ++ p) (lit "file:") = true) as ->
    by (apply startsWith_app; now exists p).
  cbn [negb]. unfold parse_file_suffix. destruct p; [congruence|]. now rewrite Hlt.
Qed.

End PackageInfoProperties.

(** ** The resolver followed by getPackageInfo *)

Lemma versioned_name pkg v :
  pkg <> [] ->
  forallb notAt (skipn 1 pkg) = true ->
  charAt0 (pkg ++ ch "@" :: v)
  ++ nth 0 (String_split (ch "@") (substr1 (pkg ++ ch "@" :: v))) [] = pkg.
Proof.
  intros Hne Hat. destruct pkg as [|a pkg]; [congruence|].
  cbn [skipn] in Hat. cbn [app charAt0 substr1 firstn skipn].
  now rewrite String_split_first by exact Hat.
Qed.

Lemma canonical_name_cases name :
  (exists s, canonical_name name = lit "tjs-template" ++ s)
  /\ (forallb notAt name = true -> forallb notAt (canonical_name name) = true)
  /\ (name <> [] -> exists s0 c, canonical_name name = s0 ++ [c]
                                 /\ exists n0, name = n0 ++ [c]).
Proof.
  unfold canonical_name.
  destruct (str_eqb name (lit "tjs-template")) eqn:E1; cbn [orb].
  - apply str_eqb_eq in E1; subst name. split; [|split].
    + now exists [].
    + auto.
    + intros _. exists (lit "tjs-templat"), (ch "e"). split; [reflexivity|].
      now exists (lit "tjs-templat").
  - destruct (startsWith name (lit "tjs-template-")) eqn:E2.
    + apply startsWith_app in E2 as [s' ->]. split; [|split].
      * now exists (lit "-" ++ s').
      * auto.
      * intros Hne. destruct (last_char Hne) as (n0 & c & E).
        exists n0, c. split; [exact E | now exists n0].
    + split; [|split].
      * now exists (lit "-" ++ name).
      * intros H. now rewrite forallb_app, H.
      * intros Hne. destruct (last_char Hne) as (n0 & c & ->).
        exists (lit "tjs-template-" ++ n0), c. split; [now rewrite <- app_assoc|].
        now exists n0.
Qed.

Lemma canonical_reference_named scope name version :
  name <> [] ->
  canonical_reference scope (Some name) version
  = orEmpty scope ++ canonical_name name ++ orEmpty version.
Proof.
  intros Hne. unfold canonical_reference, canonical_name. cbn [orEmpty].
  change (lit "tjs-template" ++ lit "-") with (lit "tjs-template-").
  destruct (_ || _); [reflexivity|].
  destruct name; [congruence|]. cbn [truthy negb]. rewrite andb_false_r.
  now rewrite <- !app_assoc.
Qed.

Section ChainProperties.

Variables path_resolve_strings path_join_strings : jsstring -> jsstring -> jsstring.

(** X15.  The resolver followed by getPackageInfo: for a package-style
    template with a name, the package name that is computed from the
    resolved reference is the scope followed by the canonical name, that is
    the resolved reference without its version, when the scope holds no
    second "@", the name no line terminator and the resolved reference is
    no archive. *)
Theorem template_package_name t d whole scope name version :
  package_style t = true ->
  String_match t re_package = Some [whole; scope; Some name; version] ->
  forallb notAt (skipn 1 (orEmpty scope)) = true ->
  forallb notLineTerminator name = true ->
  isNull (String_match (orEmpty scope ++ canonical_name name ++ orEmpty version)
                       re_archive) = true ->
  exists v,
    templatePackageInfo path_resolve_strings path_join_strings (Some t) d
    = Normal (orEmpty scope ++ canonical_name name ++ orEmpty version,
              Normal (NameVersion (Some (orEmpty scope ++ canonical_name name)) v)).
Proof.
  intros Hps Hm Hsc Hlt Ha. apply String_match_package_inv in Hm.
  pose proof (parse_package_name _ Hm) as Hne.
  destruct (parse_package_inv _ Hm) as (Hscope & Hn & _ & Hv).
  cbn [orEmpty] in Hn.
  unfold templatePackageInfo.
  rewrite (@resolve_package_style path_resolve_strings t d Hps), Hm.
  rewrite canonical_reference_named by exact Hne. cbn [bind].
  destruct (canonical_name_cases name) as ((s & Hs) & Hcat & Hlast).
  specialize (Hcat Hn). destruct (Hlast Hne) as (s0 & c & Hc & n0 & Hn0).
  set (pkg := orEmpty scope ++ canonical_name name) in *.
  assert (Hpkg : pkg <> []).
  { unfold pkg. rewrite Hc. destruct (orEmpty scope), s0; discriminate. }
  assert (Hpat : forallb notAt (skipn 1 pkg) = true).
  { unfold pkg. destruct scope as [sc|]; cbn [orEmpty app] in *.
    - destruct Hscope as (run & -> & _). cbn [app skipn] in *.
      now rewrite forallb_app, Hsc.
    - rewrite <- (firstn_skipn 1 (canonical_name name)), forallb_app in Hcat.
      now apply andb_prop in Hcat as [_ Hcat]. }
  assert (Hg : forall w, startsWith (pkg ++ w) (lit "git+") = false
                         /\ startsWith (pkg ++ w) (lit "file:") = false).
  { intros w. unfold pkg. destruct scope as [sc|]; cbn [orEmpty app].
    - destruct Hscope as (run & -> & _). split; reflexivity.
    - rewrite Hs. split; reflexivity. }
  rewrite app_assoc. fold pkg. rewrite app_assoc in Ha. fold pkg in Ha.
  destruct (parse_version_inv _ Hv) as [_ Hver].
  destruct version as [ver|]; cbn [orEmpty] in *.
  - destruct Hver as (u & -> & _).
    assert (Hclt : notLineTerminator c = true).
    { rewrite Hn0, forallb_app in Hlt. apply andb_prop in Hlt as [_ Hlt].
      cbn [forallb] in Hlt. now rewrite andb_true_r in Hlt. }
    eexists. f_equal. f_equal.
    unfold getPackageInfo. rewrite Ha, (proj1 (Hg _)). cbn [negb].
    assert (Hv' : isNull (String_match (pkg ++ ch "@" :: u) re_versioned) = false).
    { unfold pkg. rewrite Hc, app_assoc, <- app_assoc. cbn [app].
      now apply re_versioned_some. }
    rewrite Hv'. cbn [negb]. now rewrite (versioned_name u Hpkg Hpat).
  - exists None. rewrite app_nil_r in *. f_equal. f_equal.
    specialize (Hg []). rewrite app_nil_r in Hg.
    unfold getPackageInfo.
    now rewrite Ha, (proj1 Hg), (re_versioned_none _ Hpat), String_match_re_file,
      (proj2 Hg).
Qed.

(** X16.  A local template, "file:" and a suffix that is not empty and
    holds no line terminator, whose resolved path is a "@" b with neither
    "@" nor a line terminator in a, the resolved reference being no
    archive, is taken for a versioned reference by getPackageInfo: the name
    is "file:" followed by a, the version is b up to its first "@", and no
    package.json is read. *)
Theorem local_path_with_at s d a b :
  s <> [] -> forallb notLineTerminator s = true ->
  path_resolve_strings d s = a ++ ch "@" :: b ->
  forallb notAt a = true -> forallb notLineTerminator a = true ->
  isNull (String_match (lit "file:" ++ a ++ ch "@" :: b) re_archive) = true ->
  templatePackageInfo path_resolve_strings path_join_strings
    (Some (lit "file:" ++ s)) d
  = Normal (lit "file:" ++ a ++ ch "@" :: b,
            Normal (NameVersion (Some (lit "file:" ++ a)) (Some (takeWhile notAt b)))).
Proof.
  intros Hs Hlt Hp Hat Halt Ha. unfold templatePackageInfo.
  rewrite (@local_path_resolved path_resolve_strings s d Hs Hlt), Hp. cbn [bind].
  f_equal. f_equal. rewrite app_assoc in *.
  assert (H1 : forallb notAt (lit "file:" ++ a) = true)
    by (rewrite forallb_app, Hat; reflexivity).
  assert (H2 : forallb notLineTerminator (lit "file:" ++ a) = true)
    by (rewrite forallb_app, Halt; reflexivity).
  rewrite (@getPackageInfo_versioned path_join_strings (lit "file:" ++ a) b);
    [| discriminate | exact H2 | exact Ha | reflexivity].
  rewrite (@versioned_fields (lit "file:" ++ a) b); [reflexivity | discriminate | exact H1].
Qed.

End ChainProperties.

(** ** validateThatNPMCanReadCWD *)

Lemma String_split_pieces c s :
  Forall (fun piece => forallb (differs c) piece = true) (String_split c s).
Proof.
  induction s as [|d s IH]; cbn [String_split].
  - constructor; [reflexivity | constructor].
  - destruct (N.eqb c d) eqn:E.
    + constructor; [reflexivity | exact IH].
    + destruct (String_split c s) as [|p ps]; [repeat constructor; cbn; unfold differs; now rewrite E|].
      inversion IH as [|? ? Hp Hps]; subst. constructor; [|exact Hps].
      cbn [forallb]. unfold differs at 1. now rewrite E.
Qed.

Lemma find_first (A : Type) (f : A -> bool) l1 x l2 :
  Forall (fun a => f a = false) l1 -> f x = true ->
  find f (l1 ++ x :: l2) = Some x.
Proof.
  intros H Hx. induction H as [|a l Ha _ IH]; cbn [app find].
  - now rewrite Hx.
  - now rewrite Ha.
Qed.

(** X17.  In the output of npm the first line that starts with "; cwd = "
    decides: the check passes exactly when the rest of this line is the
    current directory, and reports the rest of the line otherwise. *)
Theorem npm_cwd_line_decides before other after cwd :
  Forall (fun line => forallb (differs 10%N) line = true
                      /\ startsWith line (lit "; cwd = ") = false) before ->
  forallb (differs 10%N) other = true ->
  Forall (fun line => forallb (differs 10%N) line = true) after ->
  validateThatNPMCanReadCWD
    (Some (Array_join [10%N] (before ++ (lit "; cwd = " ++ other) :: after))) cwd
  = if str_eqb other cwd then Proceed else WrongDirectory other.
Proof.
  intros Hb Ho Ha. unfold validateThatNPMCanReadCWD.
  rewrite String_split_join.
  - rewrite find_first.
    + change (List.length (lit "; cwd = ")) with 8.
      change (skipn 8 (lit "; cwd = " ++ other)) with other. reflexivity.
    + eapply Forall_impl; [|exact Hb]. now intros line [_ H].
    + apply startsWith_app. now exists other.
  - now destruct before.
  - apply Forall_app. split.
    + eapply Forall_impl; [|exact Hb]. now intros line [H _].
    + constructor; [|exact Ha]. rewrite forallb_app, Ho. reflexivity.
Qed.

Lemma forallb_skipn (A : Type) (p : A -> bool) l k :
  forallb p l = true -> forallb p (skipn k l) = true.
Proof.
  intros H. rewrite <- (firstn_skipn k l), forallb_app in H.
  now apply andb_prop in H as [_ H].
Qed.

(** X18.  The output is split at line feeds, so a current directory whose
    name holds a line feed never passes the check once a line of the output
    starts with "; cwd = ". *)
Theorem cwd_with_line_feed childOutput cwd :
  forallb (differs 10%N) cwd = false ->
  (exists line, In line (String_split 10%N childOutput)
                /\ startsWith line (lit "; cwd = ") = true) ->
  exists npmCWD,
    validateThatNPMCanReadCWD (Some childOutput) cwd = WrongDirectory npmCWD.
Proof.
  intros Hcwd (line & Hin & Hline). unfold validateThatNPMCanReadCWD.
  destruct (find _ (String_split 10%N childOutput)) as [line'|] eqn:E.
  - apply find_some in E as [Hin' _].
    pose proof (String_split_pieces 10%N childOutput) as Hp.
    rewrite Forall_forall in Hp. specialize (Hp _ Hin').
    apply (@forallb_skipn _ _ _ (List.length (lit "; cwd = "))) in Hp.
    destruct (str_eqb _ cwd) eqn:Eq.
    + apply str_eqb_eq in Eq. rewrite Eq in Hp. congruence.
    + eexists; reflexivity.
  - apply (find_none _ _ E) in Hin. congruence.
Qed.

(** ** The errors of the resolver *)

Lemma package_style_inv t :
  package_style t = true ->
  t <> [] /\ startsWith t (lit "file:") = false /\ includes t (lit "://") = false
  /\ isNull (String_match t re_archive) = true.
Proof.
  unfold package_style. intros H.
  apply andb_prop in H as [H Ha]. apply andb_prop in H as [H Hu].
  apply andb_prop in H as [Ht Hf]. apply negb_true_iff in Hf, Hu.
  repeat split; try assumption. now destruct t.
Qed.

Lemma parse_package_plain t :
  t <> [] -> forallb notAt t = true -> parse_package t = Some (None, Some t, None).
Proof.
  intros Hne Hat.
  pose proof (@parse_name_version_intro t None Hat eq_refl) as Hnv.
  cbn [orEmpty] in Hnv. rewrite app_nil_r in Hnv.
  unfold parse_package. rewrite Hnv.
  destruct t as [|c t]; [congruence|].
  cbn [forallb] in Hat. apply andb_prop in Hat as [Hc _].
  cbn [parse_scope truthy]. unfold notAt in Hc.
  destruct (N.eqb (ch "@") c); [discriminate Hc | reflexivity].
Qed.

Lemma parse_package_trailing_at name :
  forallb notAt name = true -> parse_package (name ++ [ch "@"]) = None.
Proof.
  intros Hat. unfold parse_package.
  assert (parse_name_version (name ++ [ch "@"]) = None) as ->.
  { unfold parse_name_version.
    rewrite dropWhile_app by exact Hat. reflexivity. }
  destruct name as [|c name]; [reflexivity|].
  cbn [forallb] in Hat. apply andb_prop in Hat as [Hc _].
  cbn [app parse_scope]. unfold notAt in Hc.
  destruct (N.eqb (ch "@") c); [discriminate Hc | reflexivity].
Qed.

Section ResolverErrors.

Variable path_resolve_strings : jsstring -> jsstring -> jsstring.

Local Abbreviation resolve := (getTemplateInstallPackage path_resolve_strings).

Lemma package_unparsed_throws t d :
  package_style t = true -> parse_package t = None ->
  resolve (Some t) d = Throw TypeError.
Proof.
  intros Hp H. now rewrite (@resolve_package_style path_resolve_strings t d Hp), H.
Qed.

(** X19.  The resolver throws on a string in two cases only: a local path
    whose suffix after "file:" is empty or holds a line terminator, and a
    package-style input that the package pattern does not match. *)
Theorem resolver_throws_iff t d :
  resolve (Some t) d = Throw TypeError <->
  (exists s, t = lit "file:" ++ s
             /\ (s = [] \/ forallb notLineTerminator s = false))
  \/ (package_style t = true /\ String_match t re_package = None).
Proof.
  destruct (startsWith t (lit "file:")) eqn:Hf.
  - pose proof Hf as Hs. apply startsWith_app in Hs as [s ->].
    rewrite resolve_local_path. split.
    + intros H. left. exists s. split; [reflexivity|].
      unfold parse_file_suffix in H. destruct s as [|c s]; [now left|].
      destruct (forallb notLineTerminator (c :: s)); [discriminate H | now right].
    + intros [(s' & E & Hs') | [Hp _]].
      * apply app_inv_head in E; subst s'. unfold parse_file_suffix.
        destruct Hs' as [-> | H]; [reflexivity|].
        destruct s; [reflexivity | now rewrite H].
      * apply (@package_style_inv (lit "file:" ++ s)) in Hp as (_ & Hp & _). congruence.
  - destruct (package_style t) eqn:Hp.
    + rewrite (@unmatched_package_throws path_resolve_strings t d Hp). split.
      * intros H. right. now split.
      * intros [(s & -> & _) | [_ H]]; [discriminate Hf | exact H].
    + split.
      * intros H. exfalso. unfold package_style in Hp. rewrite Hf in Hp.
        destruct t as [|c t]; [discriminate H|].
        cbn [truthy negb andb] in Hp.
        rewrite (@resolve_remote path_resolve_strings (c :: t) d Hf) in H;
          [discriminate H|].
        destruct (includes (c :: t) (lit "://")); [reflexivity|].
        cbn [negb andb orb] in *. now rewrite Hp.
      * intros [(s & -> & _) | [H _]]; discriminate.
Qed.

(** X20.  A package-style input that ends in its only "@", a name followed
    by "@" without a version, makes the resolver throw a TypeError. *)
Theorem trailing_at_throws (name : jsstring) d :
  forallb notAt name = true ->
  package_style (name ++ [ch "@"]) = true ->
  resolve (Some (name ++ [ch "@"])) d = Throw TypeError.
Proof.
  intros Hat Hp.
  apply package_unparsed_throws; [exact Hp | now apply parse_package_trailing_at].
Qed.

(** X21.  A package-style input without "@" resolves to its canonical name:
    itself when it is "tjs-template" or starts with "tjs-template-", and
    "tjs-template-" followed by it otherwise. *)
Theorem plain_name_resolved (t : jsstring) d :
  forallb notAt t = true ->
  package_style t = true ->
  resolve (Some t) d = Normal (Promise_resolve (canonical_name t)).
Proof.
  intros Hat Hp. rewrite (@resolve_package_style path_resolve_strings t d Hp).
  destruct (@package_style_inv t Hp) as (Hne & _).
  rewrite (@parse_package_plain t Hne Hat), (@canonical_reference_named None t None Hne).
  cbn [orEmpty app]. now rewrite app_nil_r.
Qed.

End ResolverErrors.

(** X22.  The package pattern matches every reference that is put together
    from a scope ("@", a run without "/" that is not empty, "/"), a name
    (not empty, without "@") and a version ("@" and characters that are not
    line terminators, at least one), the scope and the version being
    optional, and it captures exactly these parts. *)
Theorem package_pattern_round_trip scope name version :
  match scope with
  | Some sc => exists run, sc = ch "@" :: run ++ [ch "/"] /\ run <> []
                           /\ forallb notSlash run = true
  | None => True
  end ->
  name <> [] -> forallb notAt name = true ->
  match version with
  | Some v => exists u, v = ch "@" :: u /\ u <> []
                        /\ forallb notLineTerminator u = true
  | None => True
  end ->
  let t := orEmpty scope ++ name ++ orEmpty version in
  String_match t re_package = Some [Some t; scope; Some name; version].
Proof.
  intros Hsc Hne Hat Hv. apply String_match_package_assembled; try assumption.
  destruct version as [v|]; [|reflexivity].
  destruct Hv as (u & -> & Hu & Hlt). cbn [orEmpty]. now apply parse_version_intro.
Qed.

Section ChainErrors.

Variables path_resolve_strings path_join_strings : jsstring -> jsstring -> jsstring.

(** X23.  A template given as a git+ URL that holds "://" and nowhere ".git"
    (and is no archive) is returned unchanged by the resolver, and
    getPackageInfo then throws a TypeError on it; the handler reports a
    reason that is an exception as an unexpected error. *)
Theorem git_reference_without_suffix t d :
  startsWith t (lit "git+") = true ->
  includes t (lit "://") = true ->
  includes t (lit ".git") = false ->
  isNull (String_match t re_archive) = true ->
  templatePackageInfo path_resolve_strings path_join_strings (Some t) d
  = Normal (t, Throw TypeError)
  /\ abort_report (Exception TypeError) = UnexpectedError.
Proof.
  intros Hg Hu Hi Ha. split; [|reflexivity]. unfold templatePackageInfo.
  assert (Hf : startsWith t (lit "file:") = false).
  { apply startsWith_app in Hg as [s ->]. reflexivity. }
  rewrite (@resolve_remote path_resolve_strings t d Hf) by now rewrite Hu.
  cbn [bind]. f_equal. f_equal. unfold getPackageInfo.
  now rewrite Ha, Hg, (re_git_none _ Hi).
Qed.

End ChainErrors.

(** ** validateThatNPMCanReadCWD without a line *)

(** X24.  When the output of npm nowhere holds "; cwd = ", no line is found
    and the check passes, whatever the current directory. *)
Theorem output_without_cwd_proceeds childOutput cwd :
  includes childOutput (lit "; cwd = ") = false ->
  validateThatNPMCanReadCWD (Some childOutput) cwd = Proceed.
Proof.
  intros Hi. unfold validateThatNPMCanReadCWD.
  destruct (find _ (String_split 10%N childOutput)) as [line|] eqn:E; [|reflexivity].
  exfalso. apply find_some in E as [Hin Hline].
  apply startsWith_app in Hline as [other ->].
  destruct (Array_join_In [10%N] _ _ Hin) as (x & y & Hxy).
  rewrite Array_join_split in Hxy.
  assert (includes childOutput (lit "; cwd = ") = true); [|congruence].
  apply includes_app. exists x, (other ++ y). now rewrite Hxy, <- !app_assoc.
Qed.

(** * Concrete inputs of the other functions *)

Lemma validateProjectDirectory_removes_logs_witness :
  [lit ".git"; lit "app.iml"]
  = filter (fun file => negb (isErrorLog file))
           [lit ".git"; lit "npm-debug.log"; lit "app.iml"].
Proof.
  apply (@validateProjectDirectory_removes_logs
           [lit ".git"; lit "npm-debug.log"; lit "app.iml"]).
  reflexivity.
Defined.

Lemma validateProjectDirectory_again_witness :
  validateProjectDirectory [lit ".git"; lit "app.iml"]
  = Validated [lit ".git"; lit "app.iml"].
Proof.
  apply (@validateProjectDirectory_again
           [lit ".git"; lit "npm-debug.log"; lit "app.iml"]).
  reflexivity.
Defined.

Lemma abort_restores_validated_witness :
  abort_cleanup [lit ".git"; lit "node_modules"; lit "package.json"; lit "zeta.iml"]
  = ([lit ".git"; lit "zeta.iml"], ExitStatus1).
Proof.
  apply (@abort_restores_validated
           [lit ".git"; lit "npm-debug.log"; lit "zeta.iml"]
           [lit ".git"; lit "zeta.iml"]
           [lit "node_modules"; lit "package.json"]
           [lit ".git"; lit "node_modules"; lit "package.json"; lit "zeta.iml"]);
    reflexivity.
Defined.

Lemma leftover_blocks_next_run_witness :
  exists remaining files,
    abort_cleanup [lit "package.json"; lit "package-lock.json"; lit "node_modules"]
    = (remaining, ExitStatus1)
    /\ validateProjectDirectory remaining = Conflicting files
    /\ In (lit "package-lock.json") files.
Proof.
  apply leftover_blocks_next_run.
  - right; left; reflexivity.
  - reflexivity.
  - reflexivity.
Defined.

Lemma logs_removed_by_next_run_witness :
  (forall file,
      In file [lit "README.md"; lit "package.json"; lit "npm-debug.log"] ->
      isErrorLog file = true ->
      In file [lit "README.md"; lit "npm-debug.log"])
  /\ validateProjectDirectory [lit "README.md"; lit "npm-debug.log"]
     = Validated (filter (fun file => negb (isErrorLog file))
                         [lit "README.md"; lit "npm-debug.log"]).
Proof.
  apply (@logs_removed_by_next_run
           [lit "README.md"; lit "package.json"; lit "npm-debug.log"]).
  - repeat constructor; cbn; tauto.
  - reflexivity.
Defined.


Lemma getPackageInfo_name_version_witness :
  getPackageInfo join_resolve (lit "tjs-template-x" ++ ch "@" :: lit "1.0.0")
  = Normal (NameVersion (Some (lit "tjs-template-x")) (Some (takeWhile notAt (lit "1.0.0")))).
Proof.
  apply getPackageInfo_name_version; try reflexivity. discriminate.
Defined.

Lemma getPackageInfo_scoped_version_witness :
  getPackageInfo join_resolve (ch "@" :: lit "scope/name" ++ ch "@" :: lit "1.0.0")
  = Normal (NameVersion (Some (ch "@" :: lit "scope/name")) (Some (lit "scope/name"))).
Proof.
  apply getPackageInfo_scoped_version; try reflexivity. discriminate.
Defined.

Lemma getPackageInfo_plain_witness :
  getPackageInfo join_resolve (lit "@scope/tjs-template")
  = Normal (NameVersion (Some (lit "@scope/tjs-template")) None).
Proof. apply getPackageInfo_plain; reflexivity. Defined.

Lemma getPackageInfo_git_throws_witness :
  getPackageInfo join_resolve (lit "git+https://github.com/user/repo") = Throw TypeError.
Proof. apply getPackageInfo_git_throws; reflexivity. Defined.

Lemma getPackageInfo_git_name_witness :
  getPackageInfo join_resolve
    (lit "git+https://github.com/user/" ++ lit "repo" ++ lit ".git" ++ lit "#main")
  = Normal (NameVersion (Some (lit "repo")) None).
Proof.
  apply (@getPackageInfo_git_name join_resolve
           (lit "git+https://github.com/user/") (lit "repo") (lit "#main")).
  - reflexivity.
  - reflexivity.
  - right. exists (lit "git+https://github.com/user"). reflexivity.
  - discriminate.
  - reflexivity.
  - apply unique_occurrence; [discriminate | reflexivity].
  - right. exists (lit "main"). split; reflexivity.
Defined.

Lemma getPackageInfo_local_path_witness :
  getPackageInfo join_resolve (lit "file:" ++ lit "/home/user/template")
  = Normal (Manifest (join_resolve (lit "/home/user/template") (lit "package.json"))).
Proof.
  apply getPackageInfo_local_path; try reflexivity. discriminate.
Defined.

Lemma template_package_name_witness :
  exists v,
    templatePackageInfo join_resolve join_resolve
      (Some (lit "@scope/my-template@1.0.0")) []
    = Normal (lit "@scope/tjs-template-my-template@1.0.0",
              Normal (NameVersion (Some (lit "@scope/tjs-template-my-template")) v)).
Proof.
  apply (@template_package_name join_resolve join_resolve
           (lit "@scope/my-template@1.0.0") []
           (Some (lit "@scope/my-template@1.0.0")) (Some (lit "@scope/"))
           (lit "my-template") (Some (lit "@1.0.0")));
    reflexivity.
Defined.

Lemma local_path_with_at_witness :
  templatePackageInfo join_resolve join_resolve
    (Some (lit "file:" ++ lit "tpl")) (lit "/home/me@work")
  = Normal (lit "file:" ++ lit "/home/me" ++ ch "@" :: lit "work/tpl",
            Normal (NameVersion (Some (lit "file:" ++ lit "/home/me"))
                         (Some (takeWhile notAt (lit "work/tpl"))))).
Proof.
  apply local_path_with_at; try reflexivity. discriminate.
Defined.

Lemma npm_cwd_line_decides_witness :
  validateThatNPMCanReadCWD
    (Some (Array_join [10%N]
             ([lit "; cli configs"] ++ (lit "; cwd = " ++ lit "/work") :: [lit "; HOME = /root"])))
    (lit "/work/app")
  = if str_eqb (lit "/work") (lit "/work/app") then Proceed
    else WrongDirectory (lit "/work").
Proof.
  apply npm_cwd_line_decides.
  - repeat constructor.
  - reflexivity.
  - repeat constructor.
Defined.

Lemma cwd_with_line_feed_witness :
  exists npmCWD,
    validateThatNPMCanReadCWD (Some (lit "; cwd = /work/a")) (lit "/work/a" ++ [10%N] ++ lit "b")
    = WrongDirectory npmCWD.
Proof.
  apply cwd_with_line_feed; [reflexivity|].
  exists (lit "; cwd = /work/a"). split; [now left | reflexivity].
Defined.

Lemma trailing_at_throws_witness :
  getTemplateInstallPackage join_resolve (Some (lit "my-template" ++ [ch "@"])) []
  = Throw TypeError.
Proof. apply trailing_at_throws; reflexivity. Defined.

Lemma plain_name_resolved_witness :
  getTemplateInstallPackage join_resolve (Some (lit "my-template")) []
  = Normal (Promise_resolve (canonical_name (lit "my-template"))).
Proof. apply plain_name_resolved; reflexivity. Defined.

Lemma package_pattern_round_trip_witness :
  let t := orEmpty (Some (lit "@scope/")) ++ lit "name" ++ orEmpty (Some (lit "@next")) in
  String_match t re_package
  = Some [Some t; Some (lit "@scope/"); Some (lit "name"); Some (lit "@next")].
Proof.
  apply (@package_pattern_round_trip (Some (lit "@scope/")) (lit "name")
                                     (Some (lit "@next"))).
  - exists (lit "scope"). split; [reflexivity | split; [discriminate | reflexivity]].
  - discriminate.
  - reflexivity.
  - exists (lit "next"). split; [reflexivity | split; [discriminate | reflexivity]].
Defined.

Lemma git_reference_without_suffix_witness :
  templatePackageInfo join_resolve join_resolve
    (Some (lit "git+https://github.com/user/repo")) []
  = Normal (lit "git+https://github.com/user/repo", Throw TypeError)
  /\ abort_report (Exception TypeError) = UnexpectedError.
Proof. apply git_reference_without_suffix; reflexivity. Defined.

Lemma output_without_cwd_proceeds_witness :
  validateThatNPMCanReadCWD (Some (lit "; userconfig /root/.npmrc")) (lit "/work")
  = Proceed.
Proof. apply output_without_cwd_proceeds. reflexivity. Defined.
